(** * The screen compositor of [textual/_compositor.py]

    A shallow embedding of the compositor: geometry, the conversion of
    dirty regions to spans, the arrangement of the widget tree into the
    composition map, the derived indices (visible widgets, layers, cuts),
    the spatial queries and the rendering of chops. *)

From Stdlib Require Import QArith.
From stdpp Require Import gmap strings list sorting.

Open Scope Z_scope.

(** ** Geometry *)

(** [geometry.Offset], [geometry.Size], [geometry.Spacing] and
    [geometry.Region] are named tuples of Python integers. *)
Record Offset := mkOffset { offset_x : Z; offset_y : Z }.
Record Size := mkSize { size_width : Z; size_height : Z }.
Record Spacing := mkSpacing
  { spacing_top : Z; spacing_right : Z; spacing_bottom : Z; spacing_left : Z }.
Record Region := mkRegion
  { region_x : Z; region_y : Z; region_width : Z; region_height : Z }.

Global Instance Offset_eq_dec : EqDecision Offset.
Proof. solve_decision. Defined.
Global Instance Size_eq_dec : EqDecision Size.
Proof. solve_decision. Defined.
Global Instance Region_eq_dec : EqDecision Region.
Proof. solve_decision. Defined.

Global Instance Size_countable : Countable Size.
Proof.
  refine (inj_countable' (λ s, (size_width s, size_height s))
                         (λ p, mkSize p.1 p.2) _).
  by intros [].
Defined.
Global Instance Region_countable : Countable Region.
Proof.
  refine (inj_countable'
            (λ r, (region_x r, region_y r, region_width r, region_height r))
            (λ p, mkRegion p.1.1.1 p.1.1.2 p.1.2 p.2) _).
  by intros [].
Defined.

Definition NULL_OFFSET : Offset := mkOffset 0 0.

(** The cell [(cx, cy)] lies in the rectangle of the region. *)
Definition region_cell (r : Region) (cx cy : Z) : Prop :=
  region_x r ≤ cx < region_x r + region_width r ∧
  region_y r ≤ cy < region_y r + region_height r.

(** ** Regions to spans *)

(** Python compares the [(x1, x2)] tuples of [ranges.sort()]
    lexicographically. *)
Definition tuple_le (a b : Z * Z) : Prop :=
  a.1 < b.1 ∨ (a.1 = b.1 ∧ a.2 ≤ b.2).

Global Instance tuple_le_dec a b : Decision (tuple_le a b).
Proof. unfold tuple_le. apply _. Defined.
Global Instance tuple_le_total : Total tuple_le.
Proof. intros [a1 a2] [b1 b2]. unfold tuple_le. simpl. lia. Qed.
Global Instance tuple_le_trans : Transitive tuple_le.
Proof. intros [a1 a2] [b1 b2] [c1 c2]. unfold tuple_le. simpl. lia. Qed.

(** [sorted(inline_ranges.items())]: the keys of a dict are distinct, so the
    comparison of two items is decided by the row number. *)
Definition item_le (a b : Z * list (Z * Z)) : Prop := a.1 ≤ b.1.

Global Instance item_le_dec a b : Decision (item_le a b).
Proof. unfold item_le. apply _. Defined.
Global Instance item_le_total : Total item_le.
Proof. intros a b. unfold item_le. lia. Qed.
Global Instance item_le_trans : Transitive item_le.
Proof. intros a b c. unfold item_le. lia. Qed.

(** [setdefault(y, []).append(span)] *)
Definition append_span (span : Z * Z) (inline_ranges : gmap Z (list (Z * Z)))
    (y : Z) : gmap Z (list (Z * Z)) :=
  <[y := default [] (inline_ranges !! y) ++ [span]]> inline_ranges.

(** The body of the first loop: the span of a region is appended to every
    row of [range(region_y, region_y + height)]. *)
Definition add_region_spans (inline_ranges : gmap Z (list (Z * Z)))
    (r : Region) : gmap Z (list (Z * Z)) :=
  let span := (region_x r, region_x r + region_width r) in
  foldl (append_span span) inline_ranges (seqZ (region_y r) (region_height r)).

(** The inner loop over [ranges[1:]], with the current span [(x1, x2)]. *)
Fixpoint merge_ranges (y x1 x2 : Z) (rest : list (Z * Z)) : list (Z * Z * Z) :=
  match rest with
  | [] => [(y, x1, x2)]
  | (next_x1, next_x2) :: rest' =>
      if decide (next_x1 ≤ x2)
      then merge_ranges y x1 (if decide (next_x2 > x2) then next_x2 else x2) rest'
      else (y, x1, x2) :: merge_ranges y next_x1 next_x2 rest'
  end.

(** The spans yielded for one row.  A row of the dict is created together
    with its first span, so [ranges] is never empty
    (see [inline_ranges_nonempty]). *)
Definition row_spans (y : Z) (ranges : list (Z * Z)) : list (Z * Z * Z) :=
  match ranges with
  | [r] => [(y, r.1, r.2)]
  | _ =>
      match merge_sort tuple_le ranges with
      | [] => []
      | (x1, x2) :: rest => merge_ranges y x1 x2 rest
      end
  end.

Definition inline_ranges_of (regions : list Region) : gmap Z (list (Z * Z)) :=
  foldl add_region_spans ∅ regions.

Definition _regions_to_spans (regions : list Region) : list (Z * Z * Z) :=
  let inline_ranges := inline_ranges_of regions in
  mjoin ((λ item, row_spans item.1 item.2)
           <$> merge_sort item_le (map_to_list inline_ranges)).

(** The cell [(cx, cy)] lies in the span [(y, x1, x2)]. *)
Definition span_cell (s : Z * Z * Z) (cx cy : Z) : Prop :=
  cy = s.1.1 ∧ s.1.2 ≤ cx < s.2.

(** Order of the yielded spans: by row, then by left edge; a later span of
    the same row starts strictly after the end of an earlier one. *)
Definition span_before (s t : Z * Z * Z) : Prop :=
  s.1.1 < t.1.1 ∨ (s.1.1 = t.1.1 ∧ s.1.2 ≤ t.1.2 ∧ s.2 < t.1.2).


(** The spans that the regions covering row [y] contribute to it, in the
    order of the regions (specification of the first loop). *)
Definition row_ranges (regions : list Region) (y : Z) : list (Z * Z) :=
  (λ r, (region_x r, region_x r + region_width r))
    <$> filter (λ r, region_y r ≤ y < region_y r + region_height r) regions.

(** A row of the dict after more spans were appended to it. *)
Definition extend_row (o : option (list (Z * Z))) (l : list (Z * Z))
    : option (list (Z * Z)) :=
  match l with [] => o | _ => Some (default [] o ++ l) end.

(** ** Geometry operations

    [geometry.py] is not among the sources; the operations the compositor
    calls are modelled here. *)

(** Modelled from the spec: [Size.region], the region of that size at the
    origin. *)
Definition size_region (s : Size) : Region :=
  mkRegion 0 0 (size_width s) (size_height s).

(** Modelled from the spec: [Region.size]. *)
Definition region_size (r : Region) : Size :=
  mkSize (region_width r) (region_height r).

(** Modelled from the spec: [Region.offset], the top left corner. *)
Definition region_offset (r : Region) : Offset :=
  mkOffset (region_x r) (region_y r).

(** Modelled from the spec: the truth value of a [Region]; sizes are not
    negative, and a region that is zero in either axis is empty. *)
Definition region_bool (r : Region) : bool :=
  bool_decide (0 < region_width r ∧ 0 < region_height r).

(** Modelled from the spec: [Offset.__sub__]. *)
Definition offset_sub (a b : Offset) : Offset :=
  mkOffset (offset_x a - offset_x b) (offset_y a - offset_y b).

(** Modelled from the spec: [Spacing.__add__]. *)
Definition spacing_add (a b : Spacing) : Spacing :=
  mkSpacing (spacing_top a + spacing_top b) (spacing_right a + spacing_right b)
            (spacing_bottom a + spacing_bottom b) (spacing_left a + spacing_left b).

(** Modelled from the spec: [Region.translate] and [Region.__add__], the
    region moved by an offset. *)
Definition translate (r : Region) (o : Offset) : Region :=
  mkRegion (region_x r + offset_x o) (region_y r + offset_y o)
           (region_width r) (region_height r).

(** Modelled from the spec: [Region.reset_offset], same size, origin at
    (0, 0). *)
Definition reset_offset (r : Region) : Region :=
  mkRegion 0 0 (region_width r) (region_height r).

(** Modelled from the spec: [Region.shrink], the region inside a spacing. *)
Definition shrink (r : Region) (m : Spacing) : Region :=
  mkRegion (region_x r + spacing_left m) (region_y r + spacing_top m)
           (Z.max 0 (region_width r - (spacing_left m + spacing_right m)))
           (Z.max 0 (region_height r - (spacing_top m + spacing_bottom m))).

(** Modelled from the spec: [Region.grow], the region with a spacing added
    around it. *)
Definition grow (r : Region) (m : Spacing) : Region :=
  mkRegion (region_x r - spacing_left m) (region_y r - spacing_top m)
           (Z.max 0 (region_width r + spacing_left m + spacing_right m))
           (Z.max 0 (region_height r + spacing_top m + spacing_bottom m)).

(** A coordinate moved into the interval [[lo, hi]]. *)
Definition clamp (v lo hi : Z) : Z :=
  if decide (v > hi) then hi else if decide (v < lo) then lo else v.

(** Modelled from the spec: [Region.intersection]; the corners of the first
    region are moved into the second. *)
Definition intersection (a b : Region) : Region :=
  let x1 := region_x a in let y1 := region_y a in
  let x2 := x1 + region_width a in let y2 := y1 + region_height a in
  let cx1 := region_x b in let cy1 := region_y b in
  let cx2 := cx1 + region_width b in let cy2 := cy1 + region_height b in
  let rx1 := clamp x1 cx1 cx2 in let ry1 := clamp y1 cy1 cy2 in
  let rx2 := clamp x2 cx1 cx2 in let ry2 := clamp y2 cy1 cy2 in
  mkRegion rx1 ry1 (rx2 - rx1) (ry2 - ry1).

(** Modelled from the spec: [Region.union], the smallest region around
    both. *)
Definition union_region (a b : Region) : Region :=
  let x1 := Z.min (region_x a) (region_x b) in
  let y1 := Z.min (region_y a) (region_y b) in
  let x2 := Z.max (region_x a + region_width a) (region_x b + region_width b) in
  let y2 := Z.max (region_y a + region_height a) (region_y b + region_height b) in
  mkRegion x1 y1 (x2 - x1) (y2 - y1).

(** Modelled from the spec: [Region.from_union], the smallest region around
    a collection of regions; an empty collection has none. *)
Definition from_union (regions : list Region) : option Region :=
  match regions with
  | [] => None
  | r :: rs => Some (foldl union_region r rs)
  end.

(** Modelled from the spec: [Region.contains], the point lies in the
    region. *)
Definition contains (r : Region) (px py : Z) : bool :=
  bool_decide (px < region_x r + region_width r ∧ region_x r ≤ px)
  && bool_decide (py < region_y r + region_height r ∧ region_y r ≤ py).

(** Modelled from the spec: [Region.contains_region] and [other in self],
    all corners of [other] lie within [self]. *)
Definition contains_region (self other : Region) : bool :=
  let x1 := region_x self in let y1 := region_y self in
  let x2 := x1 + region_width self in let y2 := y1 + region_height self in
  let ox := region_x other in let oy := region_y other in
  let ox2 := ox + region_width other in let oy2 := oy + region_height other in
  bool_decide (x1 ≤ ox ≤ x2) && bool_decide (y1 ≤ oy ≤ y2)
  && bool_decide (x1 ≤ ox2 ≤ x2) && bool_decide (y1 ≤ oy2 ≤ y2).

(** Modelled from the spec: [Region.overlaps], the two regions share a
    cell (their intersection is not empty). *)
Definition overlaps (a b : Region) : bool := region_bool (intersection a b).

(** Modelled from the spec: [Region.line_range], the rows
    [range(y, y + height)]. *)
Definition line_range (r : Region) : list Z := seqZ (region_y r) (region_height r).

(** Modelled from the spec: [Region.column_span], the columns
    [(x, x + width)]. *)
Definition column_span (r : Region) : Z * Z :=
  (region_x r, region_x r + region_width r).

(** ** Python sequences and dicts *)

(** The position that the index [i] denotes in a list of length [n]:
    negative indices count from the end; [None] is an [IndexError]. *)
Definition py_position (n : nat) (i : Z) : option nat :=
  if decide (0 ≤ i < Z.of_nat n) then Some (Z.to_nat i)
  else if decide (- Z.of_nat n ≤ i < 0) then Some (Z.to_nat (Z.of_nat n + i))
  else None.

(** [l[i]] *)
Definition py_index {A} (l : list A) (i : Z) : option A :=
  k ← py_position (length l) i; l !! k.

(** A bound of the slice [l[lo:hi]] of a list of length [n]. *)
Definition py_slice_bound (n : nat) (i : Z) : Z :=
  if decide (i < 0) then Z.max 0 (i + Z.of_nat n) else Z.min i (Z.of_nat n).

(** An insertion-ordered dict as an association list with distinct keys:
    [d[k] = v] keeps the place of a key that is present and appends a new
    key. *)
Fixpoint dict_set {K V} `{EqDecision K} (d : list (K * V)) (k : K) (v : V)
    : list (K * V) :=
  match d with
  | [] => [(k, v)]
  | (k', v') :: d' =>
      if decide (k' = k) then (k, v) :: d' else (k', v') :: dict_set d' k v
  end.

Fixpoint dict_get {K V} `{EqDecision K} (d : list (K * V)) (k : K) : option V :=
  match d with
  | [] => None
  | (k', v') :: d' => if decide (k' = k) then Some v' else dict_get d' k
  end.

(** [d.keys()] as a set. *)
Definition dict_keys {K V} `{Countable K} (d : list (K * V)) : gset K :=
  list_to_set d.*1.

(** [d.items()] as a set. *)
Definition dict_items {K V} `{Countable K} `{Countable V} (d : list (K * V))
    : gset (K * V) :=
  list_to_set d.

(** ** Widgets *)

(** A widget is known to the compositor by its identity. *)
Definition wid := positive.

(** The attributes of a widget that the arrangement reads: its styles
    ([visibility], [offset], [gutter]), its classification, its scroll
    state, its layers, and the scrollbars it lays out. *)
Record WidgetAttrs := mkWidgetAttrs {
  widget_id : wid;
  (** [styles.get_rule("visibility")] *)
  styles_visibility : option string;
  (** [styles.offset], [None] when it is falsy, else its [resolve] *)
  styles_offset : option (Size → Size → Offset);
  styles_gutter : Spacing;
  is_scrollable : bool;
  is_container : bool;
  _get_scrollable_region : Region → Region;
  scroll_offset : Offset;
  layers : list string;
  layer : string;
  scrollbars_enabled : bool * bool;
  (** the chrome widgets and their regions *)
  _arrange_scrollbars : Region → list (wid * Region);
}.

(** The widget tree: a widget arranges its children for a size, and the
    result lists the placements [(region, margin, widget, z, fixed)]. *)
Inductive Widget : Type :=
  | mkWidget (attrs : WidgetAttrs) (_arrange : Size → DockArrangeResult)
with DockArrangeResult : Type :=
  | mkDockArrangeResult
      (placements : Placements)
      (widgets : gset wid)
      (get_visible_placements : Region → Placements)
      (total_region : Region)
      (scroll_spacing : Spacing)
with Placements : Type :=
  | no_placements
  | placement (region : Region) (margin : Spacing) (sub_widget : Widget)
      (z : Z) (fixed : bool) (rest : Placements).

Scheme Widget_mut := Induction for Widget Sort Prop
  with DockArrangeResult_mut := Induction for DockArrangeResult Sort Prop
  with Placements_mut := Induction for Placements Sort Prop.

Definition attrs (w : Widget) : WidgetAttrs := let 'mkWidget a _ := w in a.
Coercion attrs : Widget >-> WidgetAttrs.
Definition _arrange (w : Widget) : Size → DockArrangeResult :=
  let 'mkWidget _ f := w in f.

Definition placements (r : DockArrangeResult) : Placements :=
  let 'mkDockArrangeResult p _ _ _ _ := r in p.
Definition arranged_widgets (r : DockArrangeResult) : gset wid :=
  let 'mkDockArrangeResult _ ws _ _ _ := r in ws.
Definition get_visible_placements (r : DockArrangeResult) : Region → Placements :=
  let 'mkDockArrangeResult _ _ f _ _ := r in f.
Definition total_region (r : DockArrangeResult) : Region :=
  let 'mkDockArrangeResult _ _ _ t _ := r in t.
Definition scroll_spacing (r : DockArrangeResult) : Spacing :=
  let 'mkDockArrangeResult _ _ _ _ s := r in s.

(** ** The composition map *)

(** A painting order: one triple [(layer_index, z, layer_order)] per
    ancestor and one for the widget. *)
Definition Order := list (Z * Z * Z).

Record MapGeometry := mkMapGeometry {
  region : Region;
  order : Order;
  clip : Region;
  virtual_size : Size;
  container_size : Size;
  virtual_region : Region;
}.

Global Instance MapGeometry_eq_dec : EqDecision MapGeometry.
Proof. solve_decision. Defined.
Global Instance MapGeometry_countable : Countable MapGeometry.
Proof.
  refine (inj_countable'
    (λ g, (region g, order g, clip g, virtual_size g, container_size g,
           virtual_region g))
    (λ p, mkMapGeometry p.1.1.1.1.1 p.1.1.1.1.2 p.1.1.1.2 p.1.1.2 p.1.2 p.2) _).
  by intros [].
Defined.

(** [MapGeometry.visible_region] *)
Definition visible_region (g : MapGeometry) : Region :=
  intersection (clip g) (region g).

(** [CompositorMap]: a dict from widgets to their geometry. *)
Definition CompositorMap := list (wid * MapGeometry).

Record ReflowResult := mkReflowResult {
  hidden : gset wid;
  shown : gset wid;
  resized : gset wid;
}.

(** ** The arrangement *)

(** The state of [_arrange_root] that [add_widget] updates: the [map] and
    the set [widgets]. *)
Definition ArrangeState := (CompositorMap * gset wid)%type.

(** [map[widget] = geometry] *)
Definition map_set (st : ArrangeState) (widget : wid) (g : MapGeometry)
    : ArrangeState :=
  (dict_set st.1 widget g, st.2).

(** [widgets.add(widget)] *)
Definition add_new_widget (st : ArrangeState) (widget : wid) : ArrangeState :=
  (st.1, {[widget]} ∪ st.2).

(** [widgets.update(arranged_widgets)] *)
Definition widgets_update (st : ArrangeState) (ws : gset wid) : ArrangeState :=
  (st.1, st.2 ∪ ws).

(** [{layer_name: index for index, layer_name in enumerate(_layers)}]: a
    name that is listed twice keeps its last index. *)
Definition layers_to_index (_layers : list string) : gmap string Z :=
  foldl (λ m p, <[p.2 := Z.of_nat p.1]> m) ∅ (imap (λ i name, (i, name)) _layers).

(** [any(widget.scrollbars_enabled)] *)
Definition any_scrollbar (enabled : bool * bool) : bool := enabled.1 || enabled.2.

(** The effective visibility of a widget: the rule [visibility] of its
    styles, when set, replaces the inherited flag. *)
Definition effective_visible (widget : WidgetAttrs) (visible : bool) : bool :=
  match styles_visibility widget with
  | Some visibility => bool_decide (visibility = "visible"%string)
  | None => visible
  end.

(** The scrollbars of a widget are added to the map with the order and the
    clip of the widget. *)
Definition add_scrollbars (widget : WidgetAttrs) (container_region : Region)
    (order : Order) (clip : Region) (container_size : Size)
    (st : ArrangeState) : ArrangeState :=
  foldl (λ st chrome,
           map_set st chrome.1
             (mkMapGeometry chrome.2 order clip container_size container_size
                            chrome.2))
        st (_arrange_scrollbars widget container_region).

(** [add_widget], called recursively to place a widget and its children in
    the map.  [add_placements] is its loop over [reversed(placements)]: the
    placements after the first are handled before it; the loop carries the
    state, [total_region] and [layer_order]. *)
Fixpoint add_widget (visible_only : bool) (widget : Widget)
    (virtual_region region : Region) (order : Order) (layer_order : Z)
    (clip : Region) (visible : bool) (st : ArrangeState) {struct widget}
    : ArrangeState :=
  let visible := effective_visible widget visible in
  let st := if visible then add_new_widget st (widget_id widget) else st in
  let layout_offset :=
    match styles_offset widget with
    | Some styles_offset => styles_offset (region_size region) (region_size clip)
    | None => NULL_OFFSET
    end in
  let container_region :=
    translate (shrink region (styles_gutter widget)) layout_offset in
  let container_size := region_size container_region in
  if is_scrollable widget then
    let child_region := _get_scrollable_region widget container_region in
    let sub_clip := intersection clip child_region in
    let total_region0 := reset_offset child_region in
    let '(st, total_region1) :=
      if is_container widget then
        let arrange_result := _arrange widget (region_size child_region) in
        let st := widgets_update st (arranged_widgets arrange_result) in
        let placements' :=
          if visible_only
          then get_visible_placements arrange_result
                 (translate (size_region container_size) (scroll_offset widget))
          else placements arrange_result in
        let total_region1 :=
          union_region total_region0 (total_region arrange_result) in
        let placement_offset := region_offset container_region in
        let placement_scroll_offset :=
          offset_sub placement_offset (scroll_offset widget) in
        let get_layer_index := layers_to_index (layers widget) in
        let '(st, total_region2, _) :=
          add_placements visible_only placements' order sub_clip visible
            placement_offset placement_scroll_offset get_layer_index
            (scroll_spacing arrange_result) (st, total_region1, layer_order) in
        (st, total_region2)
      else (st, total_region0) in
    if visible then
      let st :=
        if any_scrollbar (scrollbars_enabled widget)
        then add_scrollbars widget container_region order clip container_size st
        else st in
      map_set st (widget_id widget)
        (mkMapGeometry (translate region layout_offset) order clip
           (region_size total_region1) container_size virtual_region)
    else st
  else if visible then
    map_set st (widget_id widget)
      (mkMapGeometry (translate region layout_offset) order clip
         (region_size region) container_size virtual_region)
  else st
with add_placements (visible_only : bool) (ps : Placements)
    (order : Order) (sub_clip : Region) (visible : bool)
    (placement_offset placement_scroll_offset : Offset)
    (get_layer_index : gmap string Z) (scroll_spacing : Spacing)
    (acc : ArrangeState * Region * Z) {struct ps}
    : ArrangeState * Region * Z :=
  match ps with
  | no_placements => acc
  | placement sub_region margin sub_widget z fixed rest =>
      let '(st, total_region, layer_order) :=
        add_placements visible_only rest order sub_clip visible
          placement_offset placement_scroll_offset get_layer_index
          scroll_spacing acc in
      let layer_index := default 0 (get_layer_index !! layer sub_widget) in
      let '(total_region, widget_region) :=
        if fixed
        then (total_region, translate sub_region placement_offset)
        else (union_region total_region
                (grow sub_region
                   (if decide (layer_index = 0)
                    then spacing_add margin scroll_spacing else margin)),
              translate sub_region placement_scroll_offset) in
      let widget_order := order ++ [(layer_index, z, layer_order)] in
      let st :=
        add_widget visible_only sub_widget sub_region widget_region
          widget_order layer_order sub_clip visible st in
      (st, total_region, layer_order - 1)
  end.

(** [_arrange_root]: the map and the set of widgets of the arrangement of
    [root] over the whole screen. *)
Definition _arrange_root (root : Widget) (size : Size) (visible_only : bool)
    : CompositorMap * gset wid :=
  add_widget visible_only root (size_region size) (size_region size)
    [(0, 0, 0)] 0 (size_region size) true ([], ∅).

(** The chrome widgets that the arrangement asks for: the scrollbars that
    [add_widget] and the calls below it put into the map. *)
Fixpoint chrome_widgets (visible_only : bool) (widget : Widget)
    (region clip : Region) (visible : bool) {struct widget} : gset wid :=
  let visible := effective_visible widget visible in
  let layout_offset :=
    match styles_offset widget with
    | Some styles_offset => styles_offset (region_size region) (region_size clip)
    | None => NULL_OFFSET
    end in
  let container_region :=
    translate (shrink region (styles_gutter widget)) layout_offset in
  let container_size := region_size container_region in
  if is_scrollable widget then
    let child_region := _get_scrollable_region widget container_region in
    let sub_clip := intersection clip child_region in
    (if is_container widget then
       let arrange_result := _arrange widget (region_size child_region) in
       let placements' :=
         if visible_only
         then get_visible_placements arrange_result
                (translate (size_region container_size) (scroll_offset widget))
         else placements arrange_result in
       chrome_placements visible_only placements' sub_clip visible
         (region_offset container_region)
         (offset_sub (region_offset container_region) (scroll_offset widget))
     else ∅)
    ∪ (if visible && any_scrollbar (scrollbars_enabled widget)
       then list_to_set (_arrange_scrollbars widget container_region).*1
       else ∅)
  else ∅
with chrome_placements (visible_only : bool) (ps : Placements)
    (sub_clip : Region) (visible : bool)
    (placement_offset placement_scroll_offset : Offset) {struct ps}
    : gset wid :=
  match ps with
  | no_placements => ∅
  | placement sub_region margin sub_widget z fixed rest =>
      chrome_placements visible_only rest sub_clip visible
        placement_offset placement_scroll_offset
      ∪ chrome_widgets visible_only sub_widget
          (translate sub_region
             (if fixed then placement_offset else placement_scroll_offset))
          sub_clip visible
  end.

(** The chrome widgets of the arrangement of [root]. *)
Definition chrome_of (root : Widget) (size : Size) (visible_only : bool)
    : gset wid :=
  chrome_widgets visible_only root (size_region size) (size_region size) true.

(** ** The compositor *)

Inductive Exception := NoWidget | IndexError | KeyError | ValueError.

(** The outcome of a call that may raise. *)
Definition Result (A : Type) : Type := Exception + A.

Definition result_bind {A B} (m : Result A) (k : A → Result B) : Result B :=
  match m with inl e => inl e | inr a => k a end.

Definition result_map {A B} (f : A → B) (m : Result A) : Result B :=
  match m with inl e => inl e | inr a => inr (f a) end.

Notation "x ←? m ; k" := (result_bind m (λ x, k))
  (at level 20, m at level 100, k at level 200, only parsing).

(** The widgets of the visible map with their region and clip, front to
    back. *)
Definition VisibleWidgets := list (wid * (Region * Region)).

(** The fields of a [Compositor]. *)
Record Compositor := mkCompositor {
  _full_map : CompositorMap;
  _full_map_invalidated : bool;
  _visible_map : option CompositorMap;
  _layers : option (list (wid * MapGeometry));
  widgets : gset wid;
  _visible_widgets : option VisibleWidgets;
  root : option Widget;
  size : Size;
  _cuts : option (list (list Z));
  _dirty_regions : gset Region;
  _layers_visible : option (list (list (wid * Region * Region)));
}.

(** [Compositor.__init__] *)
Definition __init__ : Compositor :=
  mkCompositor [] true None None ∅ None None (mkSize 0 0) None ∅ None.

(** A method of the compositor: it may raise, and it may update the
    fields. *)
Definition Run (A : Type) : Type := Compositor → Result A * Compositor.

Definition run_ret {A} (a : A) : Run A := λ self, (inr a, self).
Definition run_bind {A B} (m : Run A) (k : A → Run B) : Run B := λ self,
  match m self with
  | (inl e, self') => (inl e, self')
  | (inr a, self') => k a self'
  end.
Definition raise {A} (e : Exception) : Run A := λ self, (inl e, self).
Definition lift {A} (r : Result A) : Run A := λ self, (r, self).

Notation "x ←! m ; k" := (run_bind m (λ x, k))
  (at level 20, m at level 100, k at level 200, only parsing).

Definition set__visible_widgets (v : option VisibleWidgets) (c : Compositor)
    : Compositor :=
  mkCompositor (_full_map c) (_full_map_invalidated c) (_visible_map c)
    (_layers c) (widgets c) v (root c) (size c) (_cuts c) (_dirty_regions c)
    (_layers_visible c).
Definition set__cuts (v : option (list (list Z))) (c : Compositor) : Compositor :=
  mkCompositor (_full_map c) (_full_map_invalidated c) (_visible_map c)
    (_layers c) (widgets c) (_visible_widgets c) (root c) (size c) v
    (_dirty_regions c) (_layers_visible c).
Definition set__layers_visible
    (v : option (list (list (wid * Region * Region)))) (c : Compositor)
    : Compositor :=
  mkCompositor (_full_map c) (_full_map_invalidated c) (_visible_map c)
    (_layers c) (widgets c) (_visible_widgets c) (root c) (size c) (_cuts c)
    (_dirty_regions c) v.
Definition set__dirty_regions (v : gset Region) (c : Compositor) : Compositor :=
  mkCompositor (_full_map c) (_full_map_invalidated c) (_visible_map c)
    (_layers c) (widgets c) (_visible_widgets c) (root c) (size c) (_cuts c)
    v (_layers_visible c).

(** The symmetric difference [a ^ b] of two sets. *)
Definition symmetric_difference `{Countable A} (a b : gset A) : gset A :=
  (a ∖ b) ∪ (b ∖ a).

(** The regions that a reflow marks dirty: the visible region, when it is
    not empty, of every changed geometry. *)
Definition changed_regions (changes : gset (wid * MapGeometry)) : gset Region :=
  list_to_set
    (filter (λ region, region_bool region)
       ((λ change, intersection (clip change.2) (region change.2))
          <$> elements changes)).

(** [region[2:]], the width and height of a region. *)
Definition region_tail (r : Region) : Z * Z := (region_width r, region_height r).

(** [reflow]: lays out [parent] and its children over [size]; returns the
    hidden, shown and resized widgets. *)
Definition reflow (parent : Widget) (size : Size) (self : Compositor)
    : ReflowResult * Compositor :=
  (* the caches and [_visible_map] are reset; [root] and [size] are set *)
  let old_map := _full_map self in
  let old_widgets := dict_keys old_map in
  let '(map, widgets) := _arrange_root parent size true in
  let new_widgets := dict_keys map in
  (* self._full_map = map; self.widgets = widgets *)
  let self_widgets := widgets in
  let changes := symmetric_difference (dict_items map) (dict_items old_map) in
  let common_widgets := old_widgets ∩ new_widgets in
  let screen_region := size_region size in
  let dirty_regions :=
    if decide (screen_region ∈ _dirty_regions self)
    then _dirty_regions self
    else _dirty_regions self ∪ changed_regions changes in
  let resized_widgets : gset wid :=
    list_to_set
      ((λ change, change.1) <$>
         filter (λ change : wid * MapGeometry,
                   bool_decide (change.1 ∈ common_widgets) &&
                   (* [old_map[widget]] is defined for a common widget *)
                   match dict_get old_map change.1 with
                   | Some old => bool_decide (region_tail (region old)
                                              ≠ region_tail (region change.2))
                   | None => false
                   end)
                (elements changes)) in
  let shown_widgets := new_widgets ∖ old_widgets in
  let hidden_widgets := self_widgets ∖ widgets in
  (mkReflowResult hidden_widgets shown_widgets resized_widgets,
   mkCompositor map (_full_map_invalidated self) None None self_widgets None
     (Some parent) size None dirty_regions None).

(** [reflow_visible]: the fast path for scrolling; returns the widgets that
    the scroll exposed. *)
Definition reflow_visible (parent : Widget) (size : Size) (self : Compositor)
    : gset wid * Compositor :=
  let old_map := default (_full_map self) (_visible_map self) in
  let '(map, widgets) := _arrange_root parent size true in
  let exposed_widgets := dict_keys map ∖ dict_keys old_map in
  let changes := symmetric_difference (dict_items map) (dict_items old_map) in
  let screen_region := size_region size in
  let dirty_regions :=
    if decide (screen_region ∈ _dirty_regions self)
    then _dirty_regions self
    else _dirty_regions self ∪ changed_regions changes in
  (exposed_widgets,
   mkCompositor (_full_map self) true (Some map) None widgets None
     (Some parent) size None dirty_regions None).

(** The property [full_map]: the map that covers all widgets, built again
    when it is flagged as invalidated. *)
Definition full_map (self : Compositor) : CompositorMap * Compositor :=
  match root self with
  | None => ([], self)
  | Some root_widget =>
      if _full_map_invalidated self then
        let '(map, _widgets) := _arrange_root root_widget (size self) false in
        (map,
         mkCompositor map false None (_layers self) (widgets self) None
           (root self) (size self) (_cuts self) (_dirty_regions self)
           (_layers_visible self))
      else (_full_map self, self)
  end.

(** ** Derived indices *)

(** Python compares the triples of an order, and the orders themselves,
    lexicographically; a proper prefix is smaller. *)
Definition triple_lt (a b : Z * Z * Z) : bool :=
  bool_decide (a.1.1 < b.1.1 ∨
               (a.1.1 = b.1.1 ∧ (a.1.2 < b.1.2 ∨ (a.1.2 = b.1.2 ∧ a.2 < b.2)))).

Fixpoint order_lt (a b : Order) : bool :=
  match a, b with
  | _, [] => false
  | [], _ :: _ => true
  | x :: a', y :: b' => if decide (x = y) then order_lt a' b' else triple_lt x y
  end.

(** [list.sort(key=..., reverse=True)] is stable: an element is placed
    before the elements after it whose key is not greater. *)
Fixpoint insert_desc {A} (key_lt : A → A → bool) (x : A) (l : list A) : list A :=
  match l with
  | [] => [x]
  | y :: l' => if key_lt x y then y :: insert_desc key_lt x l' else x :: y :: l'
  end.

Definition sort_desc {A} (key_lt : A → A → bool) (l : list A) : list A :=
  foldr (insert_desc key_lt) [] l.

(** The visible widgets of a map: the widgets whose region overlaps the
    screen and their clip, sorted by order, front first. *)
Definition visible_widgets_of (map : CompositorMap) (size : Size)
    : VisibleWidgets :=
  let screen := size_region size in
  let visible_widgets :=
    (λ item : wid * MapGeometry,
       (order item.2, item.1, region item.2, clip item.2))
      <$> filter (λ item : wid * MapGeometry,
                    overlaps screen (region item.2)
                    && overlaps (clip item.2) (region item.2)) map in
  (λ v : Order * wid * Region * Region, (v.1.1.2, (v.1.2, v.2)))
    <$> sort_desc (λ a b, order_lt a.1.1.1 b.1.1.1) visible_widgets.

(** The property [visible_widgets]. *)
Definition visible_widgets : Run VisibleWidgets := λ self,
  match _visible_widgets self with
  | Some visible_widgets => (inr visible_widgets, self)
  | None =>
      let map := default (_full_map self) (_visible_map self) in
      let visible_widgets := visible_widgets_of map (size self) in
      (inr visible_widgets, set__visible_widgets (Some visible_widgets) self)
  end.

(** [layers_visible_appends[y](widget_location)] *)
Definition append_location (layers_visible : list (list (wid * Region * Region)))
    (widget_location : wid * Region * Region) (y : Z)
    : Result (list (list (wid * Region * Region))) :=
  match py_position (length layers_visible) y with
  | Some k => inr (alter (λ layer, layer ++ [widget_location]) k layers_visible)
  | None => inl IndexError
  end.

(** A loop whose body may raise. *)
Fixpoint foldM {A B} (f : B → A → Result B) (b : B) (l : list A) : Result B :=
  match l with
  | [] => inr b
  | a :: l' => b' ←? f b a; foldM f b' l'
  end.

Definition layers_visible_of (size : Size) (visible_widgets : VisibleWidgets)
    : Result (list (list (wid * Region * Region))) :=
  let layers_visible := replicate (Z.to_nat (size_height size)) [] in
  foldM (λ layers_visible (item : wid * (Region * Region)),
           let cropped_region := intersection item.2.1 item.2.2 in
           if decide (region_height cropped_region ≠ 0) then
             foldM (λ layers_visible y,
                      append_location layers_visible
                        (item.1, cropped_region, item.2.1) y)
                   layers_visible
                   (seqZ (region_y cropped_region) (region_height cropped_region))
           else inr layers_visible)
        layers_visible visible_widgets.

(** The property [layers_visible]. *)
Definition layers_visible : Run (list (list (wid * Region * Region))) := λ self,
  match _layers_visible self with
  | Some layers_visible => (inr layers_visible, self)
  | None =>
      (visible_widgets ←! visible_widgets;
       layers_visible ←! lift (layers_visible_of (size self) visible_widgets);
       λ self, (inr layers_visible,
                set__layers_visible (Some layers_visible) self)) self
  end.

(** [for cut in cuts[lo:hi]: extend(cut, region_cuts)] *)
Definition extend_cuts (cuts : list (list Z)) (lo hi : Z) (region_cuts : list Z)
    : list (list Z) :=
  let lo := py_slice_bound (length cuts) lo in
  let hi := py_slice_bound (length cuts) hi in
  imap (λ i cut, if decide (lo ≤ Z.of_nat i < hi) then cut ++ region_cuts else cut)
       cuts.

(** [sorted(set(line_cuts))] *)
Definition sorted_set (line_cuts : list Z) : list Z :=
  merge_sort Z.le (elements (list_to_set line_cuts : gset Z)).

Definition cuts_of (size : Size) (visible_widgets : VisibleWidgets)
    : list (list Z) :=
  let width := size_width size in
  let height := size_height size in
  let screen_region := size_region size in
  let cuts := replicate (Z.to_nat height) [0; width] in
  let cuts :=
    foldl (λ cuts (item : wid * (Region * Region)),
             let region := intersection item.2.1 item.2.2 in
             if region_bool region && contains_region screen_region region then
               extend_cuts cuts (region_y region)
                 (region_y region + region_height region)
                 [region_x region; region_x region + region_width region]
             else cuts)
          cuts visible_widgets in
  sorted_set <$> cuts.

(** The property [cuts]: for every line, the points where a widget starts
    or ends. *)
Definition cuts : Run (list (list Z)) := λ self,
  match _cuts self with
  | Some cuts => (inr cuts, self)
  | None =>
      (visible_widgets ←! visible_widgets;
       λ self, let cuts := cuts_of (size self) visible_widgets in
               (inr cuts, set__cuts (Some cuts) self)) self
  end.

(** ** Queries and rendering *)

(** [l[i]] together with the position it denotes; an index out of range
    raises [IndexError]. *)
Definition py_getitem {A} (l : list A) (i : Z) : Result (nat * A) :=
  match py_position (length l) i with
  | Some k =>
      match l !! k with
      | Some a => inr (k, a)
      | None => inl IndexError
      end
  | None => inl IndexError
  end.

(** [dict.fromkeys(keys)] *)
Definition fromkeys {K V} `{EqDecision K} (keys : list K) : list (K * option V) :=
  foldl (λ d k, dict_set d k None) [] keys.

Section rendering.
(** A strip is one rendered row of a widget: a sequence of cells. *)
Context {Cell : Type}.
Definition Strip : Type := list Cell.

(** What the compositor asks of a widget when it answers queries and
    renders: [widget.visible], [widget.styles.opacity] and
    [widget.render_lines(region)]. *)
Variable widget_visible : wid → bool.
Variable opacity : wid → Q.
Variable render_lines : wid → Region → list Strip.

(** [get_widget_at]: the widget under a coordinate and its region. *)
Definition get_widget_at (x y : Z) : Run (wid * Region) :=
  layers_visible0 ←! layers_visible;
  if decide (y < Z.of_nat (length layers_visible0) ∧ 0 ≤ y) then
    layers_visible1 ←! layers_visible;
    layer ←! lift (py_getitem layers_visible1 y);
    match list_find (λ loc : wid * Region * Region,
                       contains loc.1.2 x y && widget_visible loc.1.1)
                    layer.2 with
    | Some (_, (widget, _, region)) => run_ret (widget, region)
    | None => raise NoWidget
    end
  else raise NoWidget.

(** [get_widgets_at]: all the widgets under a coordinate, as the
    generator yields them. *)
Definition get_widgets_at (x y : Z) : Run (list (wid * Region)) :=
  layers_visible0 ←! layers_visible;
  layer ←! lift (py_getitem layers_visible0 y);
  run_ret ((λ loc : wid * Region * Region, (loc.1.1, loc.2))
             <$> filter (λ loc : wid * Region * Region,
                           contains loc.1.2 x y && widget_visible loc.1.1)
                        layer.2).

(** The region, local to the widget, that [_get_renders] passes to
    [render_lines]; [None] when the widget is skipped. *)
Definition render_request (region clip : Region) : option Region :=
  if contains_region clip region then
    Some (mkRegion 0 0 (region_width region) (region_height region))
  else
    let clipped_region := intersection region clip in
    if negb (region_bool clipped_region) then None
    else
      let delta_x := region_x clipped_region - region_x region in
      let delta_y := region_y clipped_region - region_y region in
      Some (mkRegion delta_x delta_y (region_width clipped_region)
              (region_height clipped_region)).

(** The widgets that [_get_renders] renders for a crop region. *)
Definition widget_regions_of (crop : option Region)
    (visible_widgets : VisibleWidgets) : VisibleWidgets :=
  match crop with
  | Some crop' =>
      if region_bool crop' then
        filter (λ item : wid * (Region * Region),
                  overlaps crop' item.2.2 && negb (Qle_bool (opacity item.1) 0))
               visible_widgets
      else
        filter (λ item : wid * (Region * Region),
                  negb (Qle_bool (opacity item.1) 0)) visible_widgets
  | None =>
      filter (λ item : wid * (Region * Region),
                negb (Qle_bool (opacity item.1) 0)) visible_widgets
  end.

(** The render of one widget: its region, its clip and its strips. *)
Definition render_of (item : wid * (Region * Region))
    : option (Region * Region * list Strip) :=
  request ← render_request item.2.1 item.2.2;
  Some (item.2.1, item.2.2, render_lines item.1 request).

(** [_get_renders]: the rendered widgets of the composition. *)
Definition _get_renders (crop : option Region)
    : Run (list (Region * Region * list Strip)) :=
  visible_widgets ←! visible_widgets;
  run_ret (omap render_of (widget_regions_of crop visible_widgets)).

(** Modelled from the spec: [Strip.divide], the parts of the strip
    between consecutive cut positions, from position 0. *)
Fixpoint divide_from (pos : Z) (strip : Strip) (cuts : list Z) : list Strip :=
  match cuts with
  | [] => []
  | cut :: cuts' =>
      take (Z.to_nat cut - Z.to_nat pos)%nat (drop (Z.to_nat pos) strip)
      :: divide_from cut strip cuts'
  end.
Definition divide (strip : Strip) (cuts : list Z) : list Strip :=
  divide_from 0 strip cuts.

(** Modelled from the spec: [Strip.join], the strips that are present
    joined in order. *)
Definition join (strips : list (option Strip)) : Strip :=
  mjoin (omap id strips).

(** [chops]: for every line, a dict from a cut to the strip of the
    chop that starts there. *)
Definition Chops : Type := list (list (Z * option Strip)).

(** [if chops_line[cut] is None: chops_line[cut] = strip] *)
Definition write_cut (chops_line : list (Z * option Strip))
    (cut_strip : Z * Strip) : Result (list (Z * option Strip)) :=
  match dict_get chops_line cut_strip.1 with
  | None => inl KeyError
  | Some None => inr (dict_set chops_line cut_strip.1 (Some cut_strip.2))
  | Some (Some _) => inr chops_line
  end.

(** [zip(final_cuts, cut_strips)] for the strip of one line of a widget. *)
Definition cut_strips_of (cuts_line : list Z) (render_region : Region)
    (strip : Strip) : list (Z * Strip) :=
  let first_cut := (column_span render_region).1 in
  let last_cut := (column_span render_region).2 in
  let final_cuts := filter (λ cut, first_cut ≤ cut ≤ last_cut) cuts_line in
  let cut_strips :=
    if decide (length final_cuts ≤ 2)%nat then [strip]
    else
      let render_x := region_x render_region in
      let relative_cuts := (λ cut, cut - render_x) <$> tail final_cuts in
      divide strip relative_cuts in
  zip final_cuts cut_strips.

(** The body of the loop over the lines of a render. *)
Definition render_strip (cuts : list (list Z)) (is_rendered_line : Z → bool)
    (render_region : Region) (chops : Chops) (line : Z * Strip)
    : Result Chops :=
  if negb (is_rendered_line line.1) then inr chops
  else
    chops_line ←? py_getitem chops line.1;
    cuts_line ←? py_getitem cuts line.1;
    chops_line' ←? foldM write_cut chops_line.2
                     (cut_strips_of cuts_line.2 render_region line.2);
    inr (<[chops_line.1 := chops_line']> chops).

(** The body of the loop over the renders. *)
Definition render_widget (cuts : list (list Z)) (is_rendered_line : Z → bool)
    (chops : Chops) (render : Region * Region * list Strip) : Result Chops :=
  let render_region := intersection render.1.1 render.1.2 in
  foldM (render_strip cuts is_rendered_line render_region) chops
        (zip (line_range render_region) render.2).

Definition render_chops_of (cuts : list (list Z))
    (is_rendered_line : Z → bool)
    (renders : list (Region * Region * list Strip)) : Result Chops :=
  let chops := (λ cut_set, fromkeys (removelast cut_set)) <$> cuts in
  foldM (render_widget cuts is_rendered_line) chops renders.

(** [_render_chops]: the chops of the renders of the widgets, front to
    back; the first strip written for a cut stays. *)
Definition _render_chops (crop : Region) (is_rendered_line : Z → bool)
    : Run Chops :=
  cuts' ←! cuts;
  renders ←! _get_renders (Some crop);
  lift (render_chops_of cuts' is_rendered_line renders).

Record LayoutUpdate := mkLayoutUpdate {
  layout_strips : list Strip;
  layout_region : Region;
}.

Record ChopsUpdate := mkChopsUpdate {
  chops : Chops;
  spans : list (Z * Z * Z);
  chop_ends : list (list Z);
}.

(** The renderable that [render_update] returns. *)
Inductive Update :=
  | FullUpdate (update : LayoutUpdate)
  | PartialUpdate (update : ChopsUpdate).

(** [render_full_update] *)
Definition render_full_update : Run LayoutUpdate := λ self,
  let screen_region := size_region (size self) in
  (chops ←! _render_chops screen_region (λ _, true);
   run_ret (mkLayoutUpdate ((λ chop, join chop.*2) <$> chops) screen_region))
    (set__dirty_regions ∅ self).

(** [render_partial_update]: [None] when there is nothing to update. *)
Definition render_partial_update : Run (option ChopsUpdate) := λ self,
  let screen_region := size_region (size self) in
  let update_regions := _dirty_regions self in
  let self := set__dirty_regions ∅ self in
  if decide (update_regions ≠ ∅) then
    match from_union (elements update_regions) with
    | Some union =>
        let crop := intersection union screen_region in
        let spans := _regions_to_spans (elements update_regions) in
        let rendered_lines : gset Z := list_to_set ((λ s, s.1.1) <$> spans) in
        (chops ←! _render_chops crop (λ y, bool_decide (y ∈ rendered_lines));
         cuts' ←! cuts;
         run_ret (Some (mkChopsUpdate chops spans (tail <$> cuts')))) self
    | None => (inl ValueError, self)
    end
  else (inr None, self).

(** [render_update]: a full update when [full] is set or the whole screen
    is dirty, else a partial update.  (The screen stack is only handed to
    the widgets that render.) *)
Definition render_update (full : bool) : Run (option Update) := λ self,
  let screen_region := size_region (size self) in
  if full || bool_decide (screen_region ∈ _dirty_regions self) then
    (update ←! render_full_update; run_ret (Some (FullUpdate update))) self
  else
    (update ←! render_partial_update;
     run_ret (PartialUpdate <$> update)) self.
End rendering.

(** ** Sample widget trees *)

Definition no_spacing : Spacing := mkSpacing 0 0 0 0.

(** The arrangement of a widget without children. *)
Definition arrange_nothing : Size → DockArrangeResult :=
  λ _, mkDockArrangeResult no_placements ∅ (λ _, no_placements)
         (mkRegion 0 0 0 0) no_spacing.

(** A widget that is not scrollable. *)
Definition leaf (id : wid) : Widget :=
  mkWidget
    (mkWidgetAttrs id None None no_spacing false false (λ r, r) NULL_OFFSET
       [] "default" (false, false) (λ _, []))
    arrange_nothing.

(** A scrollable widget without children whose vertical scrollbar, the
    chrome widget [bar], takes the last column of its region. *)
Definition scroll_view (id bar : wid) : Widget :=
  mkWidget
    (mkWidgetAttrs id None None no_spacing true false
       (λ r, mkRegion (region_x r) (region_y r) (region_width r - 1)
               (region_height r))
       NULL_OFFSET [] "default" (true, false)
       (λ r, [(bar, mkRegion (region_x r + region_width r - 1) (region_y r) 1
                      (region_height r))]))
    arrange_nothing.

(** A container without scrollbars that arranges the given placements and
    reports as visible those that overlap the viewport. *)
Fixpoint visible_placements (viewport : Region) (ps : Placements) : Placements :=
  match ps with
  | no_placements => no_placements
  | placement sub_region margin sub_widget z fixed rest =>
      if overlaps viewport sub_region
      then placement sub_region margin sub_widget z fixed
             (visible_placements viewport rest)
      else visible_placements viewport rest
  end.

Definition container (id : wid) (ps : Placements) : Widget :=
  mkWidget
    (mkWidgetAttrs id None None no_spacing true true (λ r, r) NULL_OFFSET
       [] "default" (false, false) (λ _, []))
    (λ _, mkDockArrangeResult ps ∅ (λ viewport, visible_placements viewport ps)
            (mkRegion 0 0 0 0) no_spacing).

(** Two overlapping children: [2] at [(0, 0, 4, 2)] and, declared after it,
    [3] at [(2, 0, 4, 2)]. *)
Definition two_siblings : Widget :=
  container 1%positive
    (placement (mkRegion 0 0 4 2) no_spacing (leaf 2%positive) 0 false
       (placement (mkRegion 2 0 4 2) no_spacing (leaf 3%positive) 0 false
          no_placements)).

(** ** Specification of the cuts *)

(** The visible region of a widget is not empty and lies entirely inside
    the screen: the test of [cuts]. *)
Definition in_screen (size : Size) (r : Region) : bool :=
  region_bool r && contains_region (size_region size) r.

(** The left and right edge of the clipped region of a visible widget are
    cuts of the row [y]. *)
Definition widget_cut (size : Size) (y cut : Z) (item : wid * (Region * Region))
    : Prop :=
  let r := intersection item.2.1 item.2.2 in
  in_screen size r ∧ region_y r ≤ y < region_y r + region_height r ∧
  (cut = region_x r ∨ cut = region_x r + region_width r).

(** A container whose only child lies below the viewport. *)
Definition child_below : Widget :=
  container 1%positive
    (placement (mkRegion 0 100 5 1) no_spacing (leaf 2%positive) 0 false
       no_placements).

(** ** Specification of the painting orders *)

(** Two widgets of the map with the same order are the same widget, unless
    one of them is a chrome widget of [C]. *)
Definition orders_unique (C : gset wid) (m : CompositorMap) : Prop :=
  ∀ k1 k2 g1 g2,
    dict_get m k1 = Some g1 → dict_get m k2 = Some g2 →
    order g1 = order g2 → k1 = k2 ∨ k1 ∈ C ∨ k2 ∈ C.

(** The order of every widget of the map that is not a chrome widget of
    [C] satisfies [P]. *)
Definition orders_in (C : gset wid) (m : CompositorMap) (P : Order → Prop)
    : Prop :=
  ∀ k g, dict_get m k = Some g → k ∈ C ∨ P (order g).

(** The orders below [o] that the siblings handled so far were given: their
    [layer_order] is greater than the current one. *)
Definition below_siblings (o : Order) (layer_order : Z) (o' : Order) : Prop :=
  ∃ t : Z * Z * Z, layer_order < t.2 ∧ (o ++ [t]) `prefix_of` o'.

(** What [add_widget] keeps when it is called with the order [o], which no
    widget of the map has or extends: the orders stay unique, and the new
    orders extend [o]. *)
Definition widget_orders_ok (visible_only : bool) (w : Widget) : Prop :=
  ∀ vr r o lo cl vis (st : ArrangeState) C (Q : Order → Prop),
    chrome_widgets visible_only w r cl vis ⊆ C →
    orders_unique C st.1 → orders_in C st.1 Q →
    (∀ o', Q o' → ¬ o `prefix_of` o') →
    let st' := add_widget visible_only w vr r o lo cl vis st in
    orders_unique C st'.1 ∧ orders_in C st'.1 (λ o', Q o' ∨ o `prefix_of` o').

(** The same for the loop over the placements of a widget with order [o]:
    [layer_order] only decreases. *)
Definition placements_orders_ok (visible_only : bool) (ps : Placements) : Prop :=
  ∀ o sub_clip vis po pso gli ss (st : ArrangeState) tr lo C (Q : Order → Prop),
    chrome_placements visible_only ps sub_clip vis po pso ⊆ C →
    orders_unique C st.1 →
    orders_in C st.1 (λ o', Q o' ∨ below_siblings o lo o') →
    (∀ o', Q o' → ¬ o `prefix_of` o') →
    let res := add_placements visible_only ps o sub_clip vis po pso gli ss
                 (st, tr, lo) in
    res.2 ≤ lo ∧ orders_unique C res.1.1.1 ∧
    orders_in C res.1.1.1 (λ o', Q o' ∨ below_siblings o res.2 o').

(** ** Specification of the chops *)

(** The slot of the cut [k] in the row [i] of the chops: [None] when the
    row has no such cut, [Some None] when the slot is empty. *)
Definition slot {Cell} (chops : @Chops Cell) (i : nat) (k : Z)
    : option (option (@Strip Cell)) :=
  row ← chops !! i; dict_get row k.

(** The chops have a row for every row of cuts, with a slot for every cut
    but the last, the width. *)
Definition chops_wf {Cell} (size : Size) (cuts : list (list Z))
    (chops : @Chops Cell) : Prop :=
  length chops = length cuts ∧
  ∀ i crow k, cuts !! i = Some crow →
    is_Some (slot chops i k) ↔ k ∈ crow ∧ k < size_width size.

(** [cut] and [next] are the cuts of the row around the cell [x]: the chop
    that starts at [cut] ends at [next] and holds the cell. *)
Definition cut_around (crow : list Z) (x cut next : Z) : Prop :=
  cut ∈ crow ∧ next ∈ crow ∧ cut ≤ x < next ∧
  ∀ c, c ∈ crow → c ≤ cut ∨ next ≤ c.

(** The test of [_get_renders] for a widget: its opacity is not zero and,
    when the crop is not empty, its clip overlaps the crop. *)
Definition is_rendered (opacity : wid → Q) (crop : Region)
    (item : wid * (Region * Region)) : bool :=
  (negb (region_bool crop) || overlaps crop item.2.2)
  && negb (Qle_bool (opacity item.1) 0).

(** The cell [(k, i)] lies in the clipped region of the widget. *)
Definition covers (item : wid * (Region * Region)) (i : nat) (k : Z) : Prop :=
  let R := intersection item.2.1 item.2.2 in
  region_y R ≤ Z.of_nat i < region_y R + region_height R ∧
  region_x R ≤ k < region_x R + region_width R.

(** Three children, all at [(0, 0, 4, 1)]: 2, then 3, then 4. *)
Definition three_stacked : Widget :=
  container 1%positive
    (placement (mkRegion 0 0 4 1) no_spacing (leaf 2%positive) 0 false
       (placement (mkRegion 0 0 4 1) no_spacing (leaf 3%positive) 0 false
          (placement (mkRegion 0 0 4 1) no_spacing (leaf 4%positive) 0 false
             no_placements))).

(** Widgets that render every cell as their own identity, and that are
    all opaque. *)
Definition own_cells (widget : wid) (r : Region) : list (list wid) :=
  replicate (Z.to_nat (region_height r))
    (replicate (Z.to_nat (region_width r)) widget).
Definition opaque : wid → Q := λ _, 1%Q.

(** The edges that one visible widget adds to the row [i] of [n] rows of
    cuts. *)
Definition added_cuts (size : Size) (n : nat) (i : nat)
    (item : wid * (Region * Region)) : list Z :=
  let r := intersection item.2.1 item.2.2 in
  if in_screen size r then
    if decide (py_slice_bound n (region_y r) ≤ Z.of_nat i
               < py_slice_bound n (region_y r + region_height r))
    then [region_x r; region_x r + region_width r] else []
  else [].

(** ** Specification of the methods *)

(** A method that leaves the set of dirty regions as it is. *)
Definition keeps_dirty {A} (m : Run A) : Prop :=
  ∀ self, _dirty_regions (m self).2 = _dirty_regions self.

(** The cache of [layers_visible], when it is filled, has a row for every
    line of the screen. *)
Definition layers_cache_ok (self : Compositor) : Prop :=
  ∀ lv, _layers_visible self = Some lv →
        length lv = Z.to_nat (size_height (size self)).

(** ** Specification of the widgets of the arrangement *)

(** The keys of the map are distinct, and every key that is not a chrome
    widget of [C] is in the set of widgets. *)
Definition keys_ok (C : gset wid) (st : ArrangeState) : Prop :=
  NoDup st.1.*1 ∧ ∀ k, k ∈ st.1.*1 → k ∈ st.2 ∨ k ∈ C.

Definition widget_keys_ok (visible_only : bool) (w : Widget) : Prop :=
  ∀ vr r o lo cl vis (st : ArrangeState) C,
    chrome_widgets visible_only w r cl vis ⊆ C → keys_ok C st →
    let st' := add_widget visible_only w vr r o lo cl vis st in
    st.2 ⊆ st'.2 ∧ keys_ok C st'.

Definition placements_keys_ok (visible_only : bool) (ps : Placements) : Prop :=
  ∀ o sub_clip vis po pso gli ss (st : ArrangeState) tr lo C,
    chrome_placements visible_only ps sub_clip vis po pso ⊆ C → keys_ok C st →
    let res := add_placements visible_only ps o sub_clip vis po pso gli ss
                 (st, tr, lo) in
    st.2 ⊆ res.1.1.2 ∧ keys_ok C res.1.1.

(** ** Specification of the placed widgets *)

(** The widgets that [add_widget] and the calls below it put into the
    map, in the sequence in which they are put: a widget as [(widget,
    None)], and before it each of its scrollbars as [(scrollbar, Some
    widget)], with the widget that owns it. *)
Fixpoint placed_widgets (visible_only : bool) (widget : Widget)
    (region clip : Region) (visible : bool) {struct widget}
    : list (wid * option wid) :=
  let visible := effective_visible widget visible in
  let layout_offset :=
    match styles_offset widget with
    | Some styles_offset => styles_offset (region_size region) (region_size clip)
    | None => NULL_OFFSET
    end in
  let container_region :=
    translate (shrink region (styles_gutter widget)) layout_offset in
  let container_size := region_size container_region in
  if is_scrollable widget then
    let child_region := _get_scrollable_region widget container_region in
    let sub_clip := intersection clip child_region in
    (if is_container widget then
       let arrange_result := _arrange widget (region_size child_region) in
       let placements' :=
         if visible_only
         then get_visible_placements arrange_result
                (translate (size_region container_size) (scroll_offset widget))
         else placements arrange_result in
       placed_placements visible_only placements' sub_clip visible
         (region_offset container_region)
         (offset_sub (region_offset container_region) (scroll_offset widget))
     else [])
    ++ (if visible then
          (if any_scrollbar (scrollbars_enabled widget)
           then (λ chrome : wid * Region, (chrome.1, Some (widget_id widget)))
                  <$> _arrange_scrollbars widget container_region
           else [])
          ++ [(widget_id widget, None)]
        else [])
  else if visible then [(widget_id widget, None)] else []
with placed_placements (visible_only : bool) (ps : Placements)
    (sub_clip : Region) (visible : bool)
    (placement_offset placement_scroll_offset : Offset) {struct ps}
    : list (wid * option wid) :=
  match ps with
  | no_placements => []
  | placement sub_region margin sub_widget z fixed rest =>
      placed_placements visible_only rest sub_clip visible
        placement_offset placement_scroll_offset
      ++ placed_widgets visible_only sub_widget
           (translate sub_region
              (if fixed then placement_offset else placement_scroll_offset))
           sub_clip visible
  end.

(** The widgets that the arrangement of [root] puts into the map. *)
Definition placed_of (root : Widget) (size : Size) (visible_only : bool)
    : list (wid * option wid) :=
  placed_widgets visible_only root (size_region size) (size_region size) true.

(** The owner of a placed widget: of a scrollbar the widget that it
    belongs to, of any other widget the widget itself. *)
Definition owner (p : wid * option wid) : wid := default p.1 p.2.

(** What the map holds for the widgets [new] that were placed in it: the
    other keys are as in the map [m] before, and a scrollbar has the order
    of its owner, which is placed as well. *)
Definition placed_ok (new : list (wid * option wid)) (m m' : CompositorMap)
    : Prop :=
  (∀ k, k ∉ new.*1 → dict_get m' k = dict_get m k) ∧
  (∀ k, k ∈ new.*1 → is_Some (dict_get m' k)) ∧
  ∀ c w, (c, Some w) ∈ new →
    (w, None) ∈ new ∧
    ∃ gc gw, dict_get m' c = Some gc ∧ dict_get m' w = Some gw ∧
             order gc = order gw.

Definition widget_placed_ok (visible_only : bool) (w : Widget) : Prop :=
  ∀ vr r o lo cl vis (st : ArrangeState),
    NoDup (placed_widgets visible_only w r cl vis).*1 →
    placed_ok (placed_widgets visible_only w r cl vis) st.1
      (add_widget visible_only w vr r o lo cl vis st).1.

Definition placements_placed_ok (visible_only : bool) (ps : Placements)
    : Prop :=
  ∀ o sub_clip vis po pso gli ss (st : ArrangeState) tr lo,
    NoDup (placed_placements visible_only ps sub_clip vis po pso).*1 →
    placed_ok (placed_placements visible_only ps sub_clip vis po pso) st.1
      (add_placements visible_only ps o sub_clip vis po pso gli ss
         (st, tr, lo)).1.1.1.

(** A container whose children are the scrollable widget 2, with the
    scrollbar 9, and the widget 3 beside it. *)
Definition scroll_view_and_sibling : Widget :=
  container 1%positive
    (placement (mkRegion 0 0 5 2) no_spacing
       (scroll_view 2%positive 9%positive) 0 false
       (placement (mkRegion 5 0 5 2) no_spacing (leaf 3%positive) 0 false
          no_placements)).

(** ** Specification of the painting *)

(** The widget paints the cell [(x, y)]: the cell lies in its clipped
    region, and the widget is asked for its lines and returns a line for
    the row. *)
Definition paints {Cell} (render_lines : wid → Region → list (list Cell))
    (item : wid * (Region * Region)) (x y : Z) : Prop :=
  let R := intersection item.2.1 item.2.2 in
  contains R x y ∧
  ∃ request, render_request item.2.1 item.2.2 = Some request ∧
    (Z.to_nat (y - region_y R) < length (render_lines item.1 request))%nat.

(** [a] may be painted in front of [b]: its order is not smaller. *)
Definition in_front (a b : wid * MapGeometry) : Prop :=
  order_lt (order a.2) (order b.2) = false.

(** The test of [visible_widgets] for a widget of the map. *)
Definition on_screen (size : Size) (item : wid * MapGeometry) : bool :=
  overlaps (size_region size) (region item.2)
  && overlaps (clip item.2) (region item.2).

(** The caches of the visible widgets and of the cuts, when they are
    filled, hold what the properties compute from the map. *)
Definition caches_valid (self : Compositor) : Prop :=
  let map := default (_full_map self) (_visible_map self) in
  let visible := visible_widgets_of map (size self) in
  (∀ cached, _visible_widgets self = Some cached → cached = visible) ∧
  (∀ cached, _cuts self = Some cached → cached = cuts_of (size self) visible).
(** * Properties *)

(** ** Regions to spans *)

Example regions_to_spans_scenario_4 :
  _regions_to_spans [mkRegion 0 0 5 1; mkRegion 3 0 5 1] = [(0, 0, 8)].
Proof. vm_compute. reflexivity. Qed.

Example regions_to_spans_two_rows :
  _regions_to_spans [mkRegion 6 1 2 2; mkRegion 0 0 3 2; mkRegion 3 1 1 1]
  = [(0, 0, 3); (1, 0, 4); (1, 6, 8); (2, 6, 8)].
Proof. vm_compute. reflexivity. Qed.

Section regions_to_spans.
Implicit Types (m : gmap Z (list (Z * Z))) (regions : list Region).
Implicit Types (rest ranges : list (Z * Z)) (y cx cy : Z).

Lemma append_span_loop_lookup span m a h y :
  foldl (append_span span) m (seqZ a h) !! y =
    if decide (a ≤ y < a + h)
    then Some (default [] (m !! y) ++ [span]) else m !! y.
Proof.
  remember (Z.to_nat h) as n eqn:Hn. revert m a h Hn.
  induction n as [|n IH]; intros m a h Hn.
  - rewrite seqZ_nil by lia. simpl. case_decide; [lia | done].
  - rewrite seqZ_cons by lia. simpl.
    rewrite (IH _ _ (Z.pred h)) by lia. unfold append_span.
    destruct (decide (a = y)) as [->|Hne].
    + rewrite lookup_insert_eq.
      rewrite decide_False by lia. rewrite decide_True by lia. done.
    + rewrite lookup_insert_ne by done.
      repeat case_decide; try lia; done.
Qed.

Lemma row_ranges_cons r regions y :
  row_ranges (r :: regions) y =
    if decide (region_y r ≤ y < region_y r + region_height r)
    then (region_x r, region_x r + region_width r) :: row_ranges regions y
    else row_ranges regions y.
Proof.
  unfold row_ranges. rewrite filter_cons. by case_decide.
Qed.

Lemma inline_ranges_lookup_gen regions m y :
  foldl add_region_spans m regions !! y
  = extend_row (m !! y) (row_ranges regions y).
Proof.
  revert m. induction regions as [|r regions IH]; intros m; [done|].
  simpl. rewrite IH, row_ranges_cons. unfold add_region_spans.
  rewrite append_span_loop_lookup.
  case_decide; [|done].
  destruct (row_ranges regions y); simpl; [done|].
  by rewrite <- app_assoc.
Qed.

Lemma inline_ranges_lookup regions y :
  inline_ranges_of regions !! y = extend_row None (row_ranges regions y).
Proof.
  unfold inline_ranges_of. by rewrite inline_ranges_lookup_gen, lookup_empty.
Qed.

(** Every row of the dict holds at least one span: [ranges[0]] is defined. *)
Lemma inline_ranges_nonempty regions y ranges :
  inline_ranges_of regions !! y = Some ranges → ranges ≠ [].
Proof.
  rewrite inline_ranges_lookup. destruct (row_ranges regions y); simpl.
  - done.
  - intros [= <-]. done.
Qed.

Lemma elem_of_row_ranges regions y s :
  s ∈ row_ranges regions y ↔
  ∃ r, r ∈ regions ∧ region_y r ≤ y < region_y r + region_height r
       ∧ s = (region_x r, region_x r + region_width r).
Proof.
  unfold row_ranges. rewrite list_elem_of_fmap. split.
  - intros (r & -> & Hr). apply list_elem_of_filter in Hr as [? ?]. eauto.
  - intros (r & ? & ? & ->). exists r. split; [done|].
    by apply list_elem_of_filter.
Qed.

Lemma merge_ranges_cells y x1 x2 rest cx cy :
  Forall (λ r, x1 ≤ r.1) rest → StronglySorted tuple_le rest →
  (∃ s, s ∈ merge_ranges y x1 x2 rest ∧ span_cell s cx cy) ↔
  cy = y ∧ (x1 ≤ cx < x2 ∨ ∃ r, r ∈ rest ∧ r.1 ≤ cx < r.2).
Proof.
  revert x1 x2. induction rest as [|[n1 n2] rest IH]; intros x1 x2 Hge Hs.
  - simpl. unfold span_cell. split.
    + intros (s & ->%list_elem_of_singleton & ?). simpl in *. tauto.
    + intros [-> [?|(r & []%elem_of_nil & _)]].
      exists (y, x1, x2). split; [apply list_elem_of_singleton|]; done.
  - apply Forall_cons in Hge as [Hn1 Hge]. simpl in Hn1.
    apply StronglySorted_inv in Hs as [Hs Hall].
    assert (Forall (λ r, n1 ≤ r.1) rest) as Hge'.
    { eapply Forall_impl; [exact Hall|]. intros [] [|[]]; simpl in *; lia. }
    simpl. case_decide as Hle.
    + rewrite IH by done. split.
      * intros [-> [Hc|(r & ? & ?)]]; (split; [done|]).
        -- case_decide; [|by left].
           destruct (decide (cx < x2)); [left; lia|].
           right. exists (n1, n2). split; [apply list_elem_of_here|simpl; lia].
        -- right. exists r. split; [by apply list_elem_of_further|done].
      * intros [-> [Hc|(r & Hr & ?)]]; (split; [done|]).
        -- left. case_decide; lia.
        -- apply elem_of_cons in Hr as [->|Hr]; [|by eauto].
           left. simpl in *. case_decide; lia.
    + split.
      * intros (s & Hin & Hc). apply elem_of_cons in Hin as [->|Hin].
        -- destruct Hc as [-> ?]. simpl in *. auto.
        -- destruct (proj1 (IH n1 n2 Hge' Hs)) as [-> Hc']; [by eauto|].
           split; [done|]. right. destruct Hc' as [?|(r & ? & ?)].
           ++ exists (n1, n2). split; [apply list_elem_of_here|done].
           ++ exists r. split; [by apply list_elem_of_further|done].
      * intros [-> [Hc|(r & Hr & ?)]].
        -- exists (y, x1, x2). split; [apply list_elem_of_here|done].
        -- destruct (proj2 (IH n1 n2 Hge' Hs)) as (s & ? & ?).
           { split; [done|]. apply elem_of_cons in Hr as [->|Hr]; eauto. }
           exists s. split; [by apply list_elem_of_further|done].
Qed.

Lemma merge_ranges_sorted y x1 x2 rest :
  Forall (λ r, x1 ≤ r.1) rest → StronglySorted tuple_le rest →
  StronglySorted span_before (merge_ranges y x1 x2 rest) ∧
  Forall (λ s, s.1.1 = y ∧ x1 ≤ s.1.2) (merge_ranges y x1 x2 rest).
Proof.
  revert x1 x2. induction rest as [|[n1 n2] rest IH]; intros x1 x2 Hge Hs.
  - simpl. split; [repeat constructor|].
    constructor; [simpl; lia|constructor].
  - apply Forall_cons in Hge as [Hn1 Hge]. simpl in Hn1.
    apply StronglySorted_inv in Hs as [Hs Hall].
    assert (Forall (λ r, n1 ≤ r.1) rest) as Hge'.
    { eapply Forall_impl; [exact Hall|]. intros [] [|[]]; simpl in *; lia. }
    simpl. case_decide as Hle; [by apply IH|].
    destruct (IH n1 n2 Hge' Hs) as [IH1 IH2]. split.
    + constructor; [done|]. eapply Forall_impl; [exact IH2|].
      intros [[? ?] ?] [? ?]. right. simpl in *. lia.
    + constructor; [done|]. eapply Forall_impl; [exact IH2|].
      intros [[? ?] ?] [? ?]. simpl in *. lia.
Qed.

Lemma sorted_ranges_head (a : Z * Z) rest :
  StronglySorted tuple_le (a :: rest) →
  Forall (λ r, a.1 ≤ r.1) rest ∧ StronglySorted tuple_le rest.
Proof.
  intros [Hs Hall]%StronglySorted_inv. split; [|done].
  eapply Forall_impl; [exact Hall|]. intros [] [|[]]; simpl in *; lia.
Qed.

Lemma row_spans_cells y ranges cx cy :
  (∃ s, s ∈ row_spans y ranges ∧ span_cell s cx cy) ↔
  cy = y ∧ ∃ r, r ∈ ranges ∧ r.1 ≤ cx < r.2.
Proof.
  assert (∀ l, l = ranges →
    (∃ s, s ∈ match merge_sort tuple_le l with
              | [] => []
              | (x1, x2) :: rest => merge_ranges y x1 x2 rest
              end ∧ span_cell s cx cy) ↔
    cy = y ∧ ∃ r, r ∈ ranges ∧ r.1 ≤ cx < r.2) as Hgen.
  { intros l ->.
    pose proof (StronglySorted_merge_sort tuple_le ranges) as Hs.
    pose proof (merge_sort_Permutation tuple_le ranges) as Hp.
    destruct (merge_sort tuple_le ranges) as [|[x1 x2] rest].
    - apply Permutation_nil_l in Hp as <-. split.
      + by intros (? & []%elem_of_nil & _).
      + by intros (_ & ? & []%elem_of_nil & _).
    - apply (sorted_ranges_head (x1, x2)) in Hs as [Hge Hs].
      rewrite merge_ranges_cells by done.
      setoid_rewrite <- Hp. setoid_rewrite elem_of_cons. split.
      + intros [-> [?|(r & ? & ?)]]; (split; [done|]).
        * exists (x1, x2). auto.
        * exists r. auto.
      + intros [-> (r & [->|?] & ?)]; (split; [done|]); eauto. }
  destruct ranges as [|r [|r' ranges]]; [by apply Hgen| |by apply Hgen].
  simpl. unfold span_cell. split.
  - intros (s & ->%list_elem_of_singleton & -> & ?). simpl in *.
    split; [done|]. exists r. split; [apply list_elem_of_here|done].
  - intros [-> (r0 & Hr0%list_elem_of_singleton & ?)]. subst r0.
    exists (y, r.1, r.2). split; [apply list_elem_of_here|done].
Qed.

Lemma row_spans_sorted y ranges :
  StronglySorted span_before (row_spans y ranges) ∧
  Forall (λ s, s.1.1 = y) (row_spans y ranges).
Proof.
  assert (∀ l,
    StronglySorted span_before
      match merge_sort tuple_le l with
      | [] => []
      | (x1, x2) :: rest => merge_ranges y x1 x2 rest
      end ∧
    Forall (λ s, s.1.1 = y)
      match merge_sort tuple_le l with
      | [] => []
      | (x1, x2) :: rest => merge_ranges y x1 x2 rest
      end) as Hgen.
  { intros l.
    pose proof (StronglySorted_merge_sort tuple_le l) as Hs.
    destruct (merge_sort tuple_le l) as [|[x1 x2] rest].
    - split; constructor.
    - apply (sorted_ranges_head (x1, x2)) in Hs as [Hge Hs].
      destruct (merge_ranges_sorted y x1 x2 rest Hge Hs) as [H1 H2].
      split; [done|]. eapply Forall_impl; [exact H2|]. by intros ? [? ?]. }
  destruct ranges as [|r [|r' ranges]]; [apply Hgen| |apply Hgen].
  simpl. split; repeat constructor.
Qed.
End regions_to_spans.

Lemma StronglySorted_lookup_lt {A} (R : relation A) (l : list A) i j a b :
  StronglySorted R l → (i < j)%nat → l !! i = Some a → l !! j = Some b → R a b.
Proof.
  intros Hs. revert i j. induction Hs as [|x l Hs IH Hall]; intros i j Hij Hi Hj.
  - done.
  - destruct j as [|j]; [lia|]. simpl in Hj. destruct i as [|i].
    + simpl in Hi. injection Hi as ->.
      eapply Forall_lookup_1; [exact Hall|exact Hj].
    + simpl in Hi. apply (IH i j); [lia|done..].
Qed.

Section regions_to_spans_rows.
Implicit Types (m : gmap Z (list (Z * Z))) (regions : list Region).
Implicit Types (items : list (Z * list (Z * Z))).

Lemma sorted_items_strict items :
  StronglySorted item_le items → NoDup items.*1 →
  StronglySorted (λ a b, a.1 < b.1) items.
Proof.
  induction 1 as [|a items Hs IH Hall]; intros Hnd; [constructor|].
  rewrite fmap_cons in Hnd. apply NoDup_cons in Hnd as [Hnotin Hnd].
  constructor; [by apply IH|].
  apply Forall_forall. intros b Hb.
  assert (a.1 ≠ b.1).
  { intros Heq. apply Hnotin. rewrite Heq.
    apply list_elem_of_fmap. by exists b. }
  rewrite Forall_forall in Hall. specialize (Hall b Hb).
  unfold item_le in Hall. lia.
Qed.

Lemma sorted_items_of_map m :
  let items := merge_sort item_le (map_to_list m) in
  StronglySorted (λ a b, a.1 < b.1) items ∧
  ∀ y ranges, (y, ranges) ∈ items ↔ m !! y = Some ranges.
Proof.
  intros items.
  pose proof (merge_sort_Permutation item_le (map_to_list m)) as Hp.
  split.
  - apply sorted_items_strict.
    + apply StronglySorted_merge_sort; apply _.
    + unfold items. rewrite Hp. apply NoDup_fst_map_to_list.
  - intros y ranges. unfold items. rewrite Hp. apply elem_of_map_to_list.
Qed.

Lemma row_spans_join_sorted items :
  StronglySorted (λ a b, a.1 < b.1) items →
  StronglySorted span_before
    (mjoin ((λ item, row_spans item.1 item.2) <$> items)).
Proof.
  induction 1 as [|a items Hs IH Hall]; [constructor|].
  rewrite fmap_cons. simpl. apply StronglySorted_app_2.
  - intros s t Hs1 Ht.
    apply list_elem_of_join in Ht as (l & Ht & Hl).
    apply list_elem_of_fmap in Hl as (b & -> & Hb).
    rewrite Forall_forall in Hall. specialize (Hall b Hb). simpl in Hall.
    destruct (row_spans_sorted a.1 a.2) as [_ Ha].
    destruct (row_spans_sorted b.1 b.2) as [_ Hb'].
    rewrite Forall_forall in Ha, Hb'.
    left. rewrite (Ha s Hs1), (Hb' t Ht). done.
  - apply row_spans_sorted.
  - done.
Qed.

Lemma regions_to_spans_sorted regions :
  StronglySorted span_before (_regions_to_spans regions).
Proof.
  unfold _regions_to_spans. apply row_spans_join_sorted.
  apply sorted_items_of_map.
Qed.

Lemma regions_to_spans_cells regions cx cy :
  (∃ s, s ∈ _regions_to_spans regions ∧ span_cell s cx cy) ↔
  (∃ r, r ∈ regions ∧ region_cell r cx cy).
Proof.
  unfold _regions_to_spans.
  destruct (sorted_items_of_map (inline_ranges_of regions)) as [_ Hitems].
  split.
  - intros (s & Hin & Hc).
    apply list_elem_of_join in Hin as (l & Hin & Hl).
    apply list_elem_of_fmap in Hl as ([y ranges] & -> & Hitem).
    apply Hitems in Hitem. simpl in Hin.
    destruct (proj1 (row_spans_cells y ranges cx cy)) as [-> (sp & Hsp & ?)];
      [by eauto|].
    rewrite inline_ranges_lookup in Hitem.
    assert (sp ∈ row_ranges regions y) as Hrow.
    { destruct (row_ranges regions y); simpl in Hitem; [done|].
      by injection Hitem as ->. }
    apply elem_of_row_ranges in Hrow as (r & ? & ? & ->).
    exists r. split; [done|]. unfold region_cell. simpl in *. lia.
  - intros (r & Hr & [Hx Hy]).
    set (sp := (region_x r, region_x r + region_width r)).
    assert (sp ∈ row_ranges regions cy) as Hrow.
    { apply elem_of_row_ranges. by exists r. }
    assert (inline_ranges_of regions !! cy = Some (row_ranges regions cy))
      as Hlook.
    { rewrite inline_ranges_lookup.
      destruct (row_ranges regions cy); [by apply elem_of_nil in Hrow|done]. }
    destruct (proj2 (row_spans_cells cy (row_ranges regions cy) cx cy))
      as (s & Hs & Hc).
    { split; [done|]. exists sp. split; [done|]. simpl. lia. }
    exists s. split; [|done].
    apply list_elem_of_join. exists (row_spans cy (row_ranges regions cy)).
    split; [done|]. apply list_elem_of_fmap.
    exists (cy, row_ranges regions cy). split; [done|]. by apply Hitems.
Qed.
End regions_to_spans_rows.

(** C2: [_regions_to_spans] yields the spans sorted by row and left edge;
    the cells of the spans are exactly the cells of the regions; two
    different spans of the output share no cell (a later span of a row
    starts strictly after the end of an earlier one); and in the merge loop
    the next interval is merged into the current span exactly when its left
    edge is at most the right edge of the current span, so that two
    intervals of a row give one span exactly in that case. *)
Theorem regions_to_spans_partition (regions : list Region) :
  let spans := _regions_to_spans regions in
  StronglySorted span_before spans ∧
  (∀ cx cy, (∃ s, s ∈ spans ∧ span_cell s cx cy) ↔
            (∃ r, r ∈ regions ∧ region_cell r cx cy)) ∧
  (∀ (i j : nat) s t cx cy,
      spans !! i = Some s → spans !! j = Some t →
      span_cell s cx cy → span_cell t cx cy → i = j) ∧
  (∀ y x1 x2 next_x1 next_x2 rest,
      merge_ranges y x1 x2 ((next_x1, next_x2) :: rest) =
      if decide (next_x1 ≤ x2)
      then merge_ranges y x1 (Z.max x2 next_x2) rest
      else (y, x1, x2) :: merge_ranges y next_x1 next_x2 rest) ∧
  (∀ y a b, tuple_le a b →
      (length (row_spans y [a; b]) = 1%nat ↔ b.1 ≤ a.2)).
Proof.
  intros spans.
  pose proof (regions_to_spans_sorted regions) as Hsorted.
  split; [done|]. split; [apply regions_to_spans_cells|]. split; [|split].
  - assert (∀ (i j : nat) s t cx cy, (i < j)%nat →
      spans !! i = Some s → spans !! j = Some t →
      span_cell s cx cy → span_cell t cx cy → False) as Hlt.
    { intros i j s t cx cy Hij Hi Hj [Hy1 Hx1] [Hy2 Hx2].
      pose proof (StronglySorted_lookup_lt _ _ _ _ _ _ Hsorted Hij Hi Hj)
        as [?|(? & ? & ?)]; lia. }
    intros i j s t cx cy Hi Hj Hs Ht.
    destruct (Nat.lt_trichotomy i j) as [?|[?|?]]; [|done|].
    + destruct (Hlt i j s t cx cy); done.
    + destruct (Hlt j i t s cx cy); done.
  - intros y x1 x2 n1 n2 rest. simpl.
    case_decide; [|done]. f_equal. case_decide; lia.
  - intros y [a1 a2] [b1 b2] Hab. unfold row_spans.
    assert (merge_sort tuple_le [(a1, a2); (b1, b2)] = [(a1, a2); (b1, b2)]
            ∨ (a1, a2) = (b1, b2)) as [->| [= -> ->]].
    { unfold merge_sort. simpl. unfold tuple_le in *. simpl in *.
      repeat case_decide; simpl; auto; try (right; f_equal; lia); left; done. }
    + simpl. case_decide; simpl; split; (lia || done).
    + pose proof (merge_sort_Permutation tuple_le [(b1, b2); (b1, b2)]) as Hp.
      destruct (merge_sort tuple_le [(b1, b2); (b1, b2)]) as [|c [|d [|]]] eqn:E;
        try (apply Permutation_length in Hp; simpl in Hp; lia).
      assert (c = (b1, b2) ∧ d = (b1, b2)) as [-> ->].
      { split.
        - assert (c ∈ [(b1, b2); (b1, b2)]) as Hc
            by (rewrite <- Hp; apply list_elem_of_here).
          apply elem_of_cons in Hc as [Hc|Hc%list_elem_of_singleton]; done.
        - assert (d ∈ [(b1, b2); (b1, b2)]) as Hd
            by (rewrite <- Hp; apply list_elem_of_further, list_elem_of_here).
          apply elem_of_cons in Hd as [Hd|Hd%list_elem_of_singleton]; done. }
      simpl. case_decide; simpl; split; (lia || done).
Qed.

(** ** The region requested from a widget *)

Lemma visible_widgets_frame self :
  ∃ vw, visible_widgets self = (inr vw, set__visible_widgets (Some vw) self).
Proof.
  unfold visible_widgets. destruct (_visible_widgets self) as [vw|] eqn:E.
  - exists vw. f_equal. destruct self. simpl in *. by subst.
  - eauto.
Qed.

Lemma intersection_of_contained (region clip : Region) :
  contains_region region clip → 0 ≤ region_width clip → 0 ≤ region_height clip →
  intersection region clip = clip.
Proof.
  unfold contains_region. intros H Hw Hh.
  repeat (apply andb_prop_elim in H as [H ?]).
  repeat match goal with H : Is_true (bool_decide _) |- _ =>
    apply bool_decide_unpack in H end.
  destruct region as [x y w h], clip as [cx cy cw ch]. simpl in *.
  unfold intersection, clamp. simpl.
  repeat case_decide; f_equal; lia.
Qed.

(** C7, the claim as stated fails: the region [(2, 0, 5, 1)] is not
    contained in the clip [(0, 0, 4, 1)], and the widget is asked for
    [(0, 0, 2, 1)], the clipped region in its own coordinates, not for
    [(clip.x - region.x, clip.y - region.y, clip.width, clip.height)]
    = [(-2, 0, 4, 1)]. *)
Lemma render_request_not_from_clip :
  let region := mkRegion 2 0 5 1 in
  let clip := mkRegion 0 0 4 1 in
  contains_region clip region = false ∧
  render_request region clip = Some (mkRegion 0 0 2 1) ∧
  render_request region clip ≠
    Some (mkRegion (region_x clip - region_x region)
            (region_y clip - region_y region)
            (region_width clip) (region_height clip)).
Proof. vm_compute. split; [done|]. split; [done|]. intros [=]. Qed.

Lemma omap_filter_fmap {A B} (f : A → option B) (Q : A → bool) (g : A → B)
    (l : list A) :
  (∀ a, f a = if Q a then Some (g a) else None) →
  omap f l = g <$> filter (λ a, Q a) l.
Proof.
  intros Hf. induction l as [|a l IH]; [done|].
  rewrite filter_cons.
  change (omap f (a :: l))
    with (match f a with Some b => b :: omap f l | None => omap f l end).
  rewrite Hf, IH. by destruct (Q a).
Qed.

(** C7, amended: [_get_renders] renders, in the order of
    [visible_widgets], the visible widgets whose opacity is greater than
    zero, whose clip overlaps the crop (when the crop is not empty), and
    whose region is contained in the clip or has a clipped region
    [region ∩ clip] that is not empty; no other widget is rendered.  Each of
    them is asked for [(0, 0, region.width, region.height)] when the clip
    contains the region, and else for [(clipped.x - region.x,
    clipped.y - region.y, clipped.width, clipped.height)], the clipped
    region in the coordinates of the widget; the render is the region, the
    clip and the lines that the widget returns for that request.  The
    clipped region is the clip, and the request the formula of the claim,
    when the clip is not empty and lies inside the region. *)
Theorem renders_request_clipped_region {Cell : Type} (opacity : wid → Q)
    (render_lines : wid → Region → list (list Cell))
    (crop : Region) (self : Compositor) :
  (∃ visible renders self',
     (visible_widgets self).1 = inr visible ∧
     _get_renders opacity render_lines (Some crop) self = (inr renders, self') ∧
     renders =
       (λ item : wid * (Region * Region),
          let widget := item.1 in
          let region := item.2.1 in
          let clip := item.2.2 in
          let clipped := intersection region clip in
          (region, clip,
           render_lines widget
             (if contains_region clip region
              then mkRegion 0 0 (region_width region) (region_height region)
              else mkRegion (region_x clipped - region_x region)
                     (region_y clipped - region_y region)
                     (region_width clipped) (region_height clipped))))
       <$> filter (λ item : wid * (Region * Region),
                     let region := item.2.1 in
                     let clip := item.2.2 in
                     negb (Qle_bool (opacity item.1) 0)
                     && (negb (region_bool crop) || overlaps crop clip)
                     && (contains_region clip region
                         || region_bool (intersection region clip)))
                  visible) ∧
  (∀ region clip,
     contains_region region clip →
     0 < region_width clip → 0 < region_height clip →
     intersection region clip = clip).
Proof.
  split.
  - destruct (visible_widgets_frame self) as (visible & Hvw).
    exists visible. eexists _, _. split; [by rewrite Hvw|].
    unfold _get_renders, run_bind, run_ret. rewrite Hvw. split; [done|].
    rewrite (omap_filter_fmap (render_of render_lines)
               (λ item, contains_region item.2.2 item.2.1
                        || region_bool (intersection item.2.1 item.2.2))
               (λ item,
                  (item.2.1, item.2.2,
                   render_lines item.1
                     (if contains_region item.2.2 item.2.1
                      then mkRegion 0 0 (region_width item.2.1)
                             (region_height item.2.1)
                      else mkRegion
                             (region_x (intersection item.2.1 item.2.2)
                              - region_x item.2.1)
                             (region_y (intersection item.2.1 item.2.2)
                              - region_y item.2.1)
                             (region_width (intersection item.2.1 item.2.2))
                             (region_height (intersection item.2.1 item.2.2)))))).
    2:{ intros item. unfold render_of, render_request.
        destruct (contains_region item.2.2 item.2.1); [done|].
        by destruct (region_bool (intersection item.2.1 item.2.2)). }
    f_equal. unfold widget_regions_of, VisibleWidgets in *.
    destruct (region_bool crop); simpl; rewrite list_filter_filter;
      apply list_filter_iff; intros item; simpl; rewrite ?andb_True;
      [tauto|]. assert (Is_true true) by done. tauto.
  - intros region clip Hin Hw Hh. apply intersection_of_contained; (done || lia).
Qed.

(** ** Rendering an update *)

Lemma keeps_dirty_bind {A B} (m : Run A) (k : A → Run B) :
  keeps_dirty m → (∀ a, keeps_dirty (k a)) → keeps_dirty (run_bind m k).
Proof.
  intros Hm Hk self. unfold run_bind. specialize (Hm self).
  destruct (m self) as [[e|a] self']; simpl in *; [done|].
  by rewrite Hk.
Qed.

Lemma keeps_dirty_ret {A} (a : A) : keeps_dirty (run_ret a).
Proof. done. Qed.
Lemma keeps_dirty_lift {A} (r : Result A) : keeps_dirty (lift r).
Proof. done. Qed.
Lemma keeps_dirty_raise {A} e : keeps_dirty (raise (A:=A) e).
Proof. done. Qed.

Lemma visible_widgets_keeps_dirty : keeps_dirty visible_widgets.
Proof. intros self. unfold visible_widgets. by destruct (_visible_widgets self). Qed.

Lemma cuts_keeps_dirty : keeps_dirty cuts.
Proof.
  intros self. unfold cuts. destruct (_cuts self); [done|].
  apply (keeps_dirty_bind visible_widgets); [apply visible_widgets_keeps_dirty|].
  by intros vw self'.
Qed.

Section render_update.
Context {Cell : Type}.
Variable opacity : wid → Q.
Variable render_lines : wid → Region → list (list Cell).

Lemma render_chops_keeps_dirty crop is_rendered_line :
  keeps_dirty (_render_chops opacity render_lines crop is_rendered_line).
Proof.
  unfold _render_chops.
  apply keeps_dirty_bind; [apply cuts_keeps_dirty|]. intros cuts'.
  apply keeps_dirty_bind; [|intros; apply keeps_dirty_lift].
  unfold _get_renders.
  apply keeps_dirty_bind; [apply visible_widgets_keeps_dirty|].
  intros; apply keeps_dirty_ret.
Qed.

Lemma render_full_update_clears self :
  _dirty_regions (render_full_update opacity render_lines self).2 = ∅.
Proof.
  unfold render_full_update.
  rewrite (keeps_dirty_bind _ _ (render_chops_keeps_dirty _ _)); [done|].
  intros; apply keeps_dirty_ret.
Qed.

Lemma render_partial_update_clears self :
  _dirty_regions (render_partial_update opacity render_lines self).2 = ∅.
Proof.
  unfold render_partial_update. case_decide; [|done].
  destruct (from_union _); [|done].
  rewrite (keeps_dirty_bind _ _ (render_chops_keeps_dirty _ _)); [done|].
  intros chops'. apply keeps_dirty_bind; [apply cuts_keeps_dirty|].
  intros; apply keeps_dirty_ret.
Qed.

Lemma render_partial_update_none self :
  (render_partial_update opacity render_lines self).1 = inr None
  ↔ _dirty_regions self = ∅.
Proof.
  unfold render_partial_update. case_decide as Hne.
  - split; [|done]. destruct (from_union _); [|done].
    unfold run_bind, run_ret.
    destruct (_render_chops _ _ _ _ _) as [[?|?] ?]; [done|].
    destruct (cuts _) as [[?|?] ?]; done.
  - split; [|done]. intros _. exact Hne.
Qed.

Lemma render_partial_update_spans self update :
  (render_partial_update opacity render_lines self).1 = inr (Some update) →
  spans update = _regions_to_spans (elements (_dirty_regions self)).
Proof.
  unfold render_partial_update. case_decide as Hne; [|done].
  destruct (from_union _); [|done].
  unfold run_bind, run_ret.
  destruct (_render_chops _ _ _ _ _) as [[?|?] ?]; [done|].
  destruct (cuts _) as [[?|?] ?]; [done|].
  by intros [= <-].
Qed.

End render_update.

(** ** Widgets under a coordinate *)

Lemma py_position_Some n i k :
  py_position n i = Some k → (k < n)%nat.
Proof. unfold py_position. repeat case_decide; intros [= <-]; lia. Qed.

Lemma append_location_length lv loc y lv' :
  append_location lv loc y = inr lv' → length lv' = length lv.
Proof.
  unfold append_location. destruct (py_position _ _); [|done].
  intros [= <-]. apply length_alter.
Qed.

Lemma foldM_invariant {A B} (P : B → Prop) (f : B → A → Result B) l b b' :
  (∀ b a b', P b → f b a = inr b' → P b') →
  P b → foldM f b l = inr b' → P b'.
Proof.
  intros Hf. revert b. induction l as [|a l IH]; intros b Hb; simpl.
  - by intros [= <-].
  - unfold result_bind. destruct (f b a) as [e|b1] eqn:E; [done|].
    apply IH. by eapply Hf.
Qed.

Lemma layers_visible_of_length size vw lv :
  layers_visible_of size vw = inr lv →
  length lv = Z.to_nat (size_height size).
Proof.
  unfold layers_visible_of.
  apply (foldM_invariant (λ lv, length lv = Z.to_nat (size_height size))).
  - intros b item b' Hb. case_decide; [|by intros [= <-]].
    apply (foldM_invariant (λ lv, length lv = Z.to_nat (size_height size)));
      [|done].
    intros b0 y b0' Hb0 Happ. apply append_location_length in Happ. congruence.
  - apply length_replicate.
Qed.

Lemma layers_visible_cached self lv self' :
  layers_cache_ok self → layers_visible self = (inr lv, self') →
  length lv = Z.to_nat (size_height (size self)) ∧
  layers_visible self' = (inr lv, self').
Proof.
  intros Hok. unfold layers_visible at 1.
  destruct (_layers_visible self) as [lv0|] eqn:E.
  - intros [= <- <-]. split; [by apply Hok|].
    unfold layers_visible. by rewrite E.
  - unfold run_bind, lift.
    destruct (visible_widgets_frame self) as (vw & ->).
    destruct (layers_visible_of _ vw) as [e|lv1] eqn:E1; [done|].
    intros [= <- <-]. split; [by apply layers_visible_of_length in E1|].
    done.
Qed.

Section queries.
Variable widget_visible : wid → bool.

(** C10: [get_widget_at] checks the row: for every [y] outside
    [[0, height)] it raises [NoWidget].  [get_widgets_at] has no such
    check: for [y ≥ height] it raises [IndexError], and for
    [-height ≤ y < 0] it goes through the widgets of the row
    [height + y], keeping those whose cropped region contains [(x, y)]. *)
Theorem get_widgets_at_unchecked_row (x y : Z) (self self' : Compositor)
    (rows : list (list (wid * Region * Region))) :
  layers_cache_ok self →
  layers_visible self = (inr rows, self') →
  let height := size_height (size self) in
  (y < 0 ∨ height ≤ y → (get_widget_at widget_visible x y self).1 = inl NoWidget) ∧
  (height ≤ y → (get_widgets_at widget_visible x y self).1 = inl IndexError) ∧
  (- height ≤ y < 0 →
     ∃ row, rows !! Z.to_nat (height + y) = Some row ∧
       (get_widgets_at widget_visible x y self).1 =
         inr ((λ loc : wid * Region * Region, (loc.1.1, loc.2))
                <$> filter (λ loc : wid * Region * Region,
                              contains loc.1.2 x y && widget_visible loc.1.1)
                           row)).
Proof.
  intros Hok Hlv height.
  destruct (layers_visible_cached _ _ _ Hok Hlv) as [Hlen Hlv'].
  fold height in Hlen. split; [|split].
  - intros Hy. unfold get_widget_at, run_bind. rewrite Hlv.
    rewrite decide_False by lia. done.
  - intros Hy. unfold get_widgets_at, run_bind. rewrite Hlv.
    unfold lift, py_getitem, py_position.
    rewrite decide_False by lia. rewrite decide_False by lia. done.
  - intros Hy. destruct (lookup_lt_is_Some_2 rows (Z.to_nat (height + y)))
      as [row Hrow]; [lia|].
    exists row. split; [done|].
    unfold get_widgets_at, run_bind. rewrite Hlv.
    unfold lift, py_getitem, py_position.
    rewrite decide_False by lia. rewrite decide_True by lia.
    replace (Z.of_nat (length rows) + y) with (height + y) by lia.
    rewrite Hrow. done.
Qed.
End queries.

Lemma get_widgets_at_unchecked_row_witness :
  let self := (reflow two_siblings (mkSize 10 3) __init__).2 in
  (get_widget_at (λ _, true) 3 (-1) self).1 = inl NoWidget ∧
  (get_widget_at (λ _, true) 3 3 self).1 = inl NoWidget ∧
  (get_widgets_at (λ _, true) 3 3 self).1 = inl IndexError ∧
  (get_widgets_at (λ _, true) 3 (-1) self).1 = inr [].
Proof.
  intros self.
  assert (layers_cache_ok self) as Hok by (intros lv; vm_compute; done).
  assert (layers_visible self
          = (inr (match (layers_visible self).1 with inr r => r | inl _ => [] end),
             (layers_visible self).2)) as Hlv by (vm_compute; reflexivity).
  pose proof (get_widgets_at_unchecked_row (λ _, true) 3 (-1) self _ _ Hok Hlv)
    as (H1 & _ & H3).
  pose proof (get_widgets_at_unchecked_row (λ _, true) 3 3 self _ _ Hok Hlv)
    as (H2 & H4 & _).
  split; [apply H1; left; vm_compute; reflexivity|].
  split; [apply H2; right; vm_compute; discriminate|].
  split; [apply H4; vm_compute; discriminate|].
  destruct H3 as (row & Hrow & ->); [vm_compute; split; [discriminate|reflexivity]|].
  vm_compute in Hrow. injection Hrow as <-. vm_compute. reflexivity.
Defined.

(** ** Cuts *)

Section sorted_set.
Implicit Types (l : list Z).

Lemma elem_of_sorted_set x l : x ∈ sorted_set l ↔ x ∈ l.
Proof.
  unfold sorted_set. rewrite merge_sort_Permutation.
  rewrite elem_of_elements. apply elem_of_list_to_set.
Qed.

Lemma sorted_le_nodup_lt l :
  StronglySorted Z.le l → NoDup l → StronglySorted Z.lt l.
Proof.
  induction 1 as [|a l Hs IH Hall]; intros Hnd; [constructor|].
  apply NoDup_cons in Hnd as [Hnotin Hnd].
  constructor; [by apply IH|].
  apply Forall_forall. intros b Hb.
  rewrite Forall_forall in Hall. specialize (Hall b Hb).
  assert (a ≠ b) by (intros ->; done). lia.
Qed.

Lemma sorted_set_sorted l : StronglySorted Z.lt (sorted_set l).
Proof.
  apply sorted_le_nodup_lt.
  - apply StronglySorted_merge_sort; apply _.
  - unfold sorted_set. rewrite merge_sort_Permutation. apply NoDup_elements.
Qed.

Lemma sorted_head_min l lo :
  StronglySorted Z.lt l → lo ∈ l → (∀ x, x ∈ l → lo ≤ x) → head l = Some lo.
Proof.
  intros Hs Hin Hmin. destruct l as [|a l]; [by apply elem_of_nil in Hin|].
  simpl. f_equal. apply StronglySorted_inv in Hs as [_ Hall].
  rewrite Forall_forall in Hall.
  apply elem_of_cons in Hin as [->|Hin]; [done|].
  specialize (Hall lo Hin).
  assert (lo ≤ a); [|lia]. apply Hmin, list_elem_of_here.
Qed.

Lemma sorted_last_max l hi :
  StronglySorted Z.lt l → hi ∈ l → (∀ x, x ∈ l → x ≤ hi) → last l = Some hi.
Proof.
  induction 1 as [|a l Hs IH Hall]; intros Hin Hmax;
    [by apply elem_of_nil in Hin|].
  destruct l as [|b l].
  - apply list_elem_of_singleton in Hin as ->. done.
  - rewrite last_cons_cons. apply IH.
    + apply elem_of_cons in Hin as [->|Hin]; [|done].
      apply Forall_cons in Hall as [Hab _].
      assert (b ≤ a); [|lia].
      apply Hmax. apply list_elem_of_further, list_elem_of_here.
    + intros x Hx. apply Hmax. by apply list_elem_of_further.
Qed.
End sorted_set.

Section cuts.
Implicit Types (size : Size) (vw : VisibleWidgets) (cuts : list (list Z)).

Lemma in_screen_bounds size r :
  in_screen size r →
  0 ≤ region_x r ∧ region_x r < region_x r + region_width r ≤ size_width size ∧
  0 ≤ region_y r ∧ region_y r < region_y r + region_height r ≤ size_height size.
Proof.
  unfold in_screen, region_bool, contains_region. simpl.
  intros [H H0]%andb_prop_elim.
  repeat (apply andb_prop_elim in H0 as [H0 ?]).
  repeat match goal with H : Is_true (bool_decide _) |- _ =>
    apply bool_decide_unpack in H end.
  lia.
Qed.

Lemma cuts_loop_lookup size vw cuts (i : nat) :
  let step := λ cuts (item : wid * (Region * Region)),
    let region := intersection item.2.1 item.2.2 in
    if region_bool region && contains_region (size_region size) region then
      extend_cuts cuts (region_y region)
        (region_y region + region_height region)
        [region_x region; region_x region + region_width region]
    else cuts in
  length (foldl step cuts vw) = length cuts ∧
  foldl step cuts vw !! i =
    (λ row, row ++ mjoin (added_cuts size (length cuts) i <$> vw)) <$> cuts !! i.
Proof.
  intros step. revert cuts. induction vw as [|item vw IH]; intros cuts.
  - simpl. split; [done|]. destruct (cuts !! i); simpl; [|done].
    by rewrite app_nil_r.
  - simpl. destruct (IH (step cuts item)) as [IHlen IHlook].
    assert (length (step cuts item) = length cuts) as Hlen.
    { unfold step. destruct (_ && _); [|done]. apply length_imap. }
    split; [congruence|]. rewrite IHlook, Hlen.
    unfold step at 1, added_cuts at 2, in_screen.
    destruct (_ && _); simpl.
    + unfold extend_cuts. rewrite list_lookup_imap.
      destruct (cuts !! i); simpl; [|done].
      case_decide; simpl; by rewrite <- ?app_assoc.
    + done.
Qed.

Lemma cuts_of_lookup size vw (i : nat) :
  (i < Z.to_nat (size_height size))%nat →
  cuts_of size vw !! i =
    Some (sorted_set
            ([0; size_width size]
               ++ mjoin (added_cuts size (Z.to_nat (size_height size)) i <$> vw))).
Proof.
  intros Hi. unfold cuts_of. cbv zeta. rewrite list_lookup_fmap.
  destruct (cuts_loop_lookup size vw
              (replicate (Z.to_nat (size_height size)) [0; size_width size]) i)
    as [_ Hlook].
  cbv zeta in Hlook. rewrite Hlook.
  rewrite lookup_replicate_2 by done. simpl. by rewrite length_replicate.
Qed.

Lemma cuts_of_length size vw :
  length (cuts_of size vw) = Z.to_nat (size_height size).
Proof.
  unfold cuts_of. cbv zeta. rewrite length_fmap.
  destruct (cuts_loop_lookup size vw
              (replicate (Z.to_nat (size_height size)) [0; size_width size]) 0)
    as [Hlen _].
  cbv zeta in Hlen. rewrite Hlen. apply length_replicate.
Qed.

Lemma elem_of_added_cuts size (y cut : Z) item :
  0 ≤ y < size_height size →
  cut ∈ added_cuts size (Z.to_nat (size_height size)) (Z.to_nat y) item
  ↔ widget_cut size y cut item.
Proof.
  intros Hy. unfold added_cuts, widget_cut. cbv zeta.
  generalize (intersection item.2.1 item.2.2). intros r.
  destruct (in_screen size r) eqn:E.
  - pose proof (in_screen_bounds size _ (Is_true_true_2 _ E)) as Hb.
    assert (∀ v, 0 ≤ v ≤ size_height size →
              py_slice_bound (Z.to_nat (size_height size)) v = v) as Hbound.
    { intros v Hv. unfold py_slice_bound. case_decide; lia. }
    rewrite !Hbound by lia. rewrite Z2Nat.id by lia.
    case_decide.
    + rewrite elem_of_cons, list_elem_of_singleton. simpl. tauto.
    + rewrite elem_of_nil. simpl. tauto.
  - rewrite elem_of_nil. simpl. tauto.
Qed.

(** The cuts of a row of the screen: 0, the width, and the edges of the
    visible widgets that lie inside the screen and cover the row. *)
Lemma cuts_of_row size vw (y : Z) :
  0 ≤ y < size_height size →
  ∃ row, cuts_of size vw !! Z.to_nat y = Some row ∧
    StronglySorted Z.lt row ∧
    ∀ cut, cut ∈ row ↔
      cut = 0 ∨ cut = size_width size ∨
      ∃ item, item ∈ vw ∧ widget_cut size y cut item.
Proof.
  intros Hy. eexists. split; [apply cuts_of_lookup; lia|].
  split; [apply sorted_set_sorted|].
  intros cut. rewrite elem_of_sorted_set.
  change ([0; size_width size] ++ ?l) with (0 :: size_width size :: l).
  rewrite !elem_of_cons, list_elem_of_join.
  setoid_rewrite list_elem_of_fmap. split.
  - intros [->|[->|(l & Hin & item & -> & Hitem)]]; [by auto..|].
    right. right. exists item. split; [done|].
    by apply elem_of_added_cuts.
  - intros [->|[->|(item & Hitem & Hcut)]]; [by auto..|].
    right. right. eexists. split; [|by eauto].
    by apply elem_of_added_cuts.
Qed.
End cuts.

Lemma cuts_fresh self :
  _cuts self = None →
  ∃ vw, (visible_widgets self).1 = inr vw ∧
        (cuts self).1 = inr (cuts_of (size self) vw).
Proof.
  intros Hnone. destruct (visible_widgets_frame self) as (vw & Hvw).
  exists vw. split; [by rewrite Hvw|].
  unfold cuts, run_bind. rewrite Hnone, Hvw. done.
Qed.

Lemma py_index_in_range {A} (l : list A) (i : Z) :
  0 ≤ i < Z.of_nat (length l) → py_index l i = l !! Z.to_nat i.
Proof.
  intros Hi. unfold py_index, py_position. by rewrite decide_True by done.
Qed.

(** C9: for every row [y] of the screen, [cuts[y]] is strictly increasing,
    starts with 0 and ends with the width, and every entry is 0, the width,
    or the left or right edge of the clipped region of a visible widget
    whose clipped region is not empty and lies entirely inside the screen
    (and covers the row). *)
Theorem cuts_rows (self : Compositor) (y : Z) :
  _cuts self = None →
  0 ≤ size_width (size self) →
  0 ≤ y < size_height (size self) →
  ∃ visible all_cuts row,
    (visible_widgets self).1 = inr visible ∧
    (cuts self).1 = inr all_cuts ∧
    py_index all_cuts y = Some row ∧
    StronglySorted Z.lt row ∧
    head row = Some 0 ∧
    last row = Some (size_width (size self)) ∧
    ∀ cut, cut ∈ row →
      cut = 0 ∨ cut = size_width (size self) ∨
      ∃ widget region clip,
        (widget, (region, clip)) ∈ visible ∧
        let clipped := intersection region clip in
        in_screen (size self) clipped ∧
        region_y clipped ≤ y < region_y clipped + region_height clipped ∧
        (cut = region_x clipped ∨ cut = region_x clipped + region_width clipped).
Proof.
  intros Hnone Hw Hy.
  destruct (cuts_fresh self Hnone) as (vw & Hvw & Hcuts).
  destruct (cuts_of_row (size self) vw y Hy) as (row & Hrow & Hsorted & Hin).
  exists vw, (cuts_of (size self) vw), row.
  split; [done|]. split; [done|].
  split.
  { rewrite py_index_in_range; [done|]. rewrite cuts_of_length. lia. }
  split; [done|].
  assert (∀ cut, cut ∈ row → 0 ≤ cut ≤ size_width (size self)) as Hrange.
  { intros cut [->|[->|(item & _ & Hs & _ & Hcut)]]%Hin; [lia..|].
    apply in_screen_bounds in Hs. lia. }
  split; [|split].
  - apply sorted_head_min; [done| |].
    + apply Hin. by left.
    + intros x Hx. apply Hrange in Hx. lia.
  - apply sorted_last_max; [done| |].
    + apply Hin. right. by left.
    + intros x Hx. apply Hrange in Hx. lia.
  - intros cut [->|[->|([widget [region clip]] & Hitem & Hcut)]]%Hin;
      [by auto..|].
    right. right. exists widget, region, clip. done.
Qed.

Lemma cuts_rows_witness :
  let self := (reflow two_siblings (mkSize 10 3) __init__).2 in
  ∃ row, py_index (cuts_of (size self) (visible_widgets_of (_full_map self)
                                           (size self))) 1 = Some row ∧
         StronglySorted Z.lt row ∧ head row = Some 0 ∧ last row = Some 10.
Proof.
  intros self.
  destruct (cuts_rows self 1) as (vw & all_cuts & row & Hvw & Hcuts & Hrow & H);
    [vm_compute; reflexivity | vm_compute; discriminate
    | vm_compute; split; [discriminate|reflexivity] |].
  vm_compute in Hcuts. injection Hcuts as <-.
  exists row. split; [|tauto]. vm_compute. vm_compute in Hrow. exact Hrow.
Defined.

(** ** Reflow *)

Lemma reflow_hidden_empty parent size self :
  hidden (reflow parent size self).1 = ∅.
Proof.
  unfold reflow. destruct (_arrange_root parent size true) as [map ws].
  simpl. apply difference_diag_L.
Qed.

Lemma reflow_shown parent size self :
  shown (reflow parent size self).1
  = dict_keys (_full_map (reflow parent size self).2) ∖ dict_keys (_full_map self).
Proof.
  unfold reflow. by destruct (_arrange_root parent size true) as [map ws].
Qed.

(** C1, the code at a failing input: the screen shows [two_siblings], the
    widgets 1, 2 and 3; a reflow with the root [leaf 1] takes 2 and 3 out of
    the map.  The old keys minus the new keys are 2 and 3, but the result
    of [reflow] has no hidden widget ([self.widgets - widgets] is computed
    after [self.widgets = widgets]).  [shown] is the new keys minus the old
    keys. *)
Theorem reflow_hidden_lost :
  let before := (reflow two_siblings (mkSize 10 3) __init__).2 in
  let after := reflow (leaf 1%positive) (mkSize 10 3) before in
  dict_keys (_full_map before) ∖ dict_keys (_full_map after.2)
    = {[2%positive; 3%positive]} ∧
  hidden after.1 = ∅ ∧
  hidden after.1 ≠ dict_keys (_full_map before) ∖ dict_keys (_full_map after.2) ∧
  shown after.1 = dict_keys (_full_map after.2) ∖ dict_keys (_full_map before).
Proof.
  intros before after.
  assert (dict_keys (_full_map before) ∖ dict_keys (_full_map after.2)
          = {[2%positive; 3%positive]}) as Hold by (vm_compute; reflexivity).
  split; [done|]. split; [apply reflow_hidden_empty|].
  split; [|apply reflow_shown].
  rewrite Hold. unfold after. rewrite reflow_hidden_empty.
  intros Heq. assert (2%positive ∈ (∅ : gset wid)) as Hin; [|set_solver].
  rewrite Heq. set_solver.
Qed.

(** C5, the code at a failing input: the root is a scrollable widget with
    a vertical scrollbar, the chrome widget 9.  After the reflow the
    scrollbar is a key of the map, but it is not in [widgets]: [add_widget]
    puts the chrome widgets into the map and never into the set. *)
Theorem reflow_widgets_miss_scrollbar :
  let self := (reflow (scroll_view 1%positive 9%positive) (mkSize 10 3) __init__).2 in
  dict_keys (_full_map self) = {[1%positive; 9%positive]} ∧
  widgets self = {[1%positive]} ∧
  ¬ dict_keys (_full_map self) ⊆ widgets self.
Proof.
  intros self.
  assert (dict_keys (_full_map self) = {[1%positive; 9%positive]}) as Hk
    by (vm_compute; reflexivity).
  assert (widgets self = {[1%positive]}) as Hw by (vm_compute; reflexivity).
  split; [done|]. split; [done|]. rewrite Hk, Hw.
  intros Hsub. specialize (Hsub 9%positive). set_solver.
Qed.

Lemma reflow_keeps_invalidated parent size self :
  _full_map_invalidated (reflow parent size self).2 = _full_map_invalidated self.
Proof.
  unfold reflow. by destruct (_arrange_root parent size true) as [map ws].
Qed.

(** C6, the code at a failing input: a new compositor lays out
    [child_below], a container whose child lies below the viewport.
    [reflow] leaves [_full_map_invalidated] set, so the next access to
    [full_map] arranges the root again, with all placements, and returns a
    map with the child in it, not the map of the reflow. *)
Theorem reflow_leaves_full_map_stale :
  let self := (reflow child_below (mkSize 10 3) __init__).2 in
  _full_map_invalidated self = true ∧
  (_full_map self).*1 = [1%positive] ∧
  (full_map self).1.*1 = [2%positive; 1%positive] ∧
  (full_map self).1 ≠ _full_map self ∧
  _full_map_invalidated (full_map self).2 = false.
Proof.
  intros self.
  split; [vm_compute; reflexivity|]. split; [vm_compute; reflexivity|].
  split; [vm_compute; reflexivity|]. split; [|vm_compute; reflexivity].
  intros Heq. apply (f_equal (λ m : CompositorMap, length m)) in Heq.
  vm_compute in Heq. discriminate.
Qed.

(** ** Dicts *)

Section dict.
Context {K V : Type} `{EqDecision K}.
Implicit Types (d : list (K * V)) (k : K) (v : V).

Lemma dict_get_set d k v k' :
  dict_get (dict_set d k v) k' = if decide (k = k') then Some v else dict_get d k'.
Proof.
  induction d as [|[k0 v0] d IH]; simpl.
  - done.
  - destruct (decide (k0 = k)) as [->|Hne]; simpl.
    + by destruct (decide (k = k')).
    + rewrite IH. destruct (decide (k0 = k')) as [->|?]; [|done].
      by rewrite decide_False by done.
Qed.

Lemma dict_get_Some_elem d k v : dict_get d k = Some v → (k, v) ∈ d.
Proof.
  induction d as [|[k0 v0] d IH]; simpl; [done|].
  case_decide as Hk.
  - intros [= ->]. subst. apply list_elem_of_here.
  - intros H. by apply list_elem_of_further, IH.
Qed.
End dict.

Section dict_more.
Context {K V : Type} `{EqDecision K}.
Implicit Types (d : list (K * V)) (k : K) (v : V).

Lemma dict_get_is_Some d k : is_Some (dict_get d k) ↔ k ∈ d.*1.
Proof.
  induction d as [|[k0 v0] d IH]; simpl.
  - rewrite elem_of_nil. split; [by intros [? ?]|done].
  - rewrite elem_of_cons. case_decide as Hk; simpl.
    + split; [by auto|by eauto].
    + rewrite IH. split; [by auto|]. intros [->|?]; done.
Qed.

Lemma dict_get_fromkeys_gen (keys : list K) (d : list (K * option V)) (k : K) :
  dict_get (foldl (λ acc k', dict_set acc k' None) d keys) k
  = if decide (k ∈ keys) then Some None else dict_get d k.
Proof.
  revert d. induction keys as [|k0 keys IH]; intros d; simpl.
  - destruct (decide (k ∈ [])) as [Hk|]; [by apply elem_of_nil in Hk|done].
  - rewrite IH, dict_get_set.
    destruct (decide (k ∈ keys)) as [Hin|Hnin].
    + rewrite decide_True; [done|]. by apply list_elem_of_further.
    + destruct (decide (k0 = k)) as [->|Hne].
      * rewrite decide_True; [done|]. apply list_elem_of_here.
      * rewrite decide_False; [done|].
        intros [?|?]%elem_of_cons; congruence.
Qed.

Lemma dict_get_fromkeys (keys : list K) k :
  dict_get (fromkeys (V:=V) keys) k = if decide (k ∈ keys) then Some None else None.
Proof. unfold fromkeys. by rewrite dict_get_fromkeys_gen. Qed.
End dict_more.

Lemma elem_of_dict_keys `{Countable K} {V} (d : list (K * V)) (k : K) :
  k ∈ dict_keys d ↔ is_Some (dict_get d k).
Proof. unfold dict_keys. by rewrite elem_of_list_to_set, dict_get_is_Some. Qed.

(** ** The keys of a composition map and the set of widgets *)

Section dict_keys.
Context {K V : Type} `{EqDecision K}.
Implicit Types (d : list (K * V)) (k : K) (v : V).

Lemma elem_of_dict_set_keys d k v x :
  x ∈ (dict_set d k v).*1 ↔ x = k ∨ x ∈ d.*1.
Proof.
  induction d as [|[k0 v0] d IH]; simpl.
  - rewrite list_elem_of_singleton, elem_of_nil. tauto.
  - case_decide as Hk; simpl; rewrite !elem_of_cons.
    + subst. tauto.
    + rewrite IH. tauto.
Qed.

Lemma dict_set_NoDup d k v : NoDup d.*1 → NoDup (dict_set d k v).*1.
Proof.
  induction d as [|[k0 v0] d IH]; simpl; intros Hnd.
  - apply NoDup_singleton.
  - apply NoDup_cons in Hnd as [Hnotin Hnd]. case_decide as Hk; simpl.
    + subst. by apply NoDup_cons.
    + apply NoDup_cons. split; [|by apply IH].
      rewrite elem_of_dict_set_keys. intros [?|?]; [congruence|done].
Qed.

Lemma dict_get_elem_of d k v : NoDup d.*1 → (k, v) ∈ d ↔ dict_get d k = Some v.
Proof.
  intros Hnd. split; [|apply dict_get_Some_elem].
  induction d as [|[k0 v0] d IH]; simpl; [by intros ?%elem_of_nil|].
  apply NoDup_cons in Hnd as [Hnotin Hnd].
  intros [[= -> ->]|Hin]%elem_of_cons.
  - by rewrite decide_True.
  - rewrite decide_False; [by apply IH|].
    intros ->. apply Hnotin. apply list_elem_of_fmap. by exists (k, v).
Qed.
End dict_keys.

Section arrangement_keys.
Variable visible_only : bool.
Implicit Types (C : gset wid) (st : ArrangeState).

Lemma keys_ok_widgets C st (ws : gset wid) :
  keys_ok C st → st.2 ⊆ ws → keys_ok C (st.1, ws).
Proof.
  intros [Hnd Hin] Hsub. split; [done|]. simpl. intros k Hk.
  destruct (Hin k Hk) as [?|?]; [left; by apply Hsub|by right].
Qed.

Lemma keys_ok_set C st k g :
  keys_ok C st → k ∈ st.2 ∨ k ∈ C → keys_ok C (map_set st k g).
Proof.
  intros [Hnd Hin] Hk. split; simpl.
  - by apply dict_set_NoDup.
  - intros k' [->|Hk']%elem_of_dict_set_keys; [done|by apply Hin].
Qed.

Lemma add_scrollbars_keys C widget container_region o clip' container_size' st :
  list_to_set (_arrange_scrollbars widget container_region).*1 ⊆ C →
  keys_ok C st →
  let st' := add_scrollbars widget container_region o clip' container_size' st in
  st'.2 = st.2 ∧ keys_ok C st'.
Proof.
  unfold add_scrollbars.
  generalize (_arrange_scrollbars widget container_region). intros chrome.
  revert st. induction chrome as [|[cw cr] chrome IH]; intros st Hsub Hok.
  - done.
  - assert (cw ∈ C) as Hcw.
    { apply Hsub. rewrite fmap_cons.
      apply elem_of_list_to_set, list_elem_of_here. }
    simpl. destruct (IH (map_set st cw
                           (mkMapGeometry cr o clip' container_size'
                              container_size' cr))) as [Hws Hok'].
    + intros x Hx. apply Hsub. rewrite fmap_cons.
      apply elem_of_list_to_set, list_elem_of_further.
      by apply elem_of_list_to_set in Hx.
    + apply keys_ok_set; [done|by right].
    + split; [|done]. by rewrite Hws.
Qed.

Lemma add_widget_keys : ∀ w, widget_keys_ok visible_only w.
Proof.
  apply (Widget_mut (widget_keys_ok visible_only)
           (λ a, placements_keys_ok visible_only (placements a) ∧
                 ∀ r, placements_keys_ok visible_only
                        (get_visible_placements a r))
           (placements_keys_ok visible_only)).
  - intros attrs' arr IH vr r o lo cl vis st C Hsub Hok.
    assert (∀ sz r', placements_keys_ok visible_only
              (if visible_only then get_visible_placements (arr sz) r'
               else placements (arr sz))) as Hps.
    { intros sz r'. destruct visible_only; apply IH. }
    clear IH. simpl in *.
    set (st0 := if effective_visible attrs' vis
                then add_new_widget st (widget_id attrs') else st) in *.
    assert (st.2 ⊆ st0.2 ∧ keys_ok C st0 ∧
            (effective_visible attrs' vis → widget_id attrs' ∈ st0.2))
      as (Hsub0 & Hok0 & Hself).
    { unfold st0. destruct (effective_visible attrs' vis); simpl.
      - split; [apply union_subseteq_r|]. split; [|intros _; set_solver].
        apply (keys_ok_widgets C st). { done. } apply union_subseteq_r.
      - split; [done|]. split; [by destruct st|]. by intros []. }
    clearbody st0.
    destruct (is_scrollable attrs'); [|destruct (effective_visible attrs' vis)].
    + apply union_subseteq in Hsub as [Hsub1 Hsub2].
      destruct (is_container attrs').
      * match goal with
          |- context [add_placements ?vo
                        (if _ then get_visible_placements (arr ?sz) ?r' else _)
                        ?o ?sc ?vis ?po ?pso ?gli ?ss (?st1, ?tr, ?lo)] =>
            pose proof (Hps sz r' o sc vis po pso gli ss st1 tr lo C) as Hloop;
            destruct (add_placements vo
                        (if vo then get_visible_placements (arr sz) r'
                         else placements (arr sz))
                        o sc vis po pso gli ss (st1, tr, lo))
              as [[st2 tr2] lo2]
        end.
        simpl in Hloop. destruct Hloop as [Hsub2' Hok2]; [exact Hsub1| |].
        { apply (keys_ok_widgets C st0); [done|]. apply union_subseteq_l. }
        assert (st0.2 ⊆ st2.2) as Hmono.
        { etrans; [|exact Hsub2']. apply union_subseteq_l. }
        destruct (effective_visible attrs' vis); simpl in *.
        -- destruct (any_scrollbar (scrollbars_enabled attrs')).
           ++ match goal with |- context [add_scrollbars ?w ?cr ?o ?cl ?cs ?st] =>
                destruct (add_scrollbars_keys C w cr o cl cs st Hsub2 Hok2)
                  as [Hws3 Hok3]
              end.
              split; [rewrite Hws3; by etrans|].
              apply keys_ok_set; [done|]. left. rewrite Hws3. by apply Hmono, Hself.
           ++ split; [by etrans|]. apply keys_ok_set; [done|].
              left. by apply Hmono, Hself.
        -- split; [by etrans|done].
      * destruct (effective_visible attrs' vis); simpl in *.
        -- destruct (any_scrollbar (scrollbars_enabled attrs')).
           ++ match goal with |- context [add_scrollbars ?w ?cr ?o ?cl ?cs ?st] =>
                destruct (add_scrollbars_keys C w cr o cl cs st Hsub2 Hok0)
                  as [Hws3 Hok3]
              end.
              split; [by rewrite Hws3|].
              apply keys_ok_set; [done|]. left. rewrite Hws3. by apply Hself.
           ++ split; [done|]. apply keys_ok_set; [done|]. left. by apply Hself.
        -- done.
    + simpl. split; [done|]. apply keys_ok_set; [done|]. left. by apply Hself.
    + done.
  - intros ps Hps ws gvp Hgvp tr ss. simpl. split; [done|]. apply Hgvp.
  - intros o sub_clip vis po pso gli ss st tr lo C Hsub Hok. simpl. done.
  - intros sub_region margin sub_widget IHw z fixed rest IHrest.
    intros o sub_clip vis po pso gli ss st tr lo C Hsub Hok. simpl in *.
    apply union_subseteq in Hsub as [Hsub1 Hsub2].
    pose proof (IHrest o sub_clip vis po pso gli ss st tr lo C Hsub1 Hok) as Hrest.
    destruct (add_placements visible_only rest o sub_clip vis po pso gli ss
                (st, tr, lo)) as [[st1 tr1] lo1].
    simpl in Hrest. destruct Hrest as [Hmono1 Hok1].
    destruct fixed; simpl.
    + destruct (IHw sub_region (translate sub_region po)
                  (o ++ [(default 0 (gli !! layer sub_widget), z, lo1)]) lo1
                  sub_clip vis st1 C Hsub2 Hok1) as [Hmono2 Hok2].
      split; [by etrans|done].
    + destruct (IHw sub_region (translate sub_region pso)
                  (o ++ [(default 0 (gli !! layer sub_widget), z, lo1)]) lo1
                  sub_clip vis st1 C Hsub2 Hok1) as [Hmono2 Hok2].
      split; [by etrans|done].
Qed.

(** The keys of the map of an arrangement are distinct, and every key is in
    the set of widgets or is a chrome widget. *)
Lemma arrange_root_keys root size :
  let res := _arrange_root root size visible_only in
  NoDup res.1.*1 ∧
  ∀ k, k ∈ dict_keys res.1 → k ∈ res.2 ∨ k ∈ chrome_of root size visible_only.
Proof.
  destruct (add_widget_keys root (size_region size) (size_region size)
              [(0, 0, 0)] 0 (size_region size) true ([], ∅)
              (chrome_of root size visible_only))
    as [_ [Hnd Hin]]; [done| |].
  { split; [constructor|]. by intros k ?%elem_of_nil. }
  split; [done|]. intros k Hk. apply Hin. by apply elem_of_list_to_set in Hk.
Qed.
End arrangement_keys.

(** ** The result of a reflow, in general *)

Section reflow_result.
Variables (parent : Widget) (size : Size) (self : Compositor).
Hypothesis old_keys : NoDup (_full_map self).*1.

(** A widget is resized when it is a key of the old map and of the new map
    and the width or the height of its region differs between the two. *)
Lemma reflow_resized w :
  let old_map := _full_map self in
  let new_map := _full_map (reflow parent size self).2 in
  w ∈ resized (reflow parent size self).1 ↔
  ∃ old new, dict_get old_map w = Some old ∧ dict_get new_map w = Some new ∧
             region_tail (region old) ≠ region_tail (region new).
Proof.
  pose proof (arrange_root_keys true parent size) as [Hnd _].
  unfold reflow. destruct (_arrange_root parent size true) as [map ws].
  simpl in *. rewrite elem_of_list_to_set, list_elem_of_fmap. split.
  - intros ([w' g] & -> & Hin). simpl.
    apply list_elem_of_filter in Hin as [Hp Hin]. simpl in Hp.
    apply andb_prop_elim in Hp as [_ Hp].
    destruct (dict_get (_full_map self) w') as [old|] eqn:Hold; [|done].
    apply bool_decide_unpack in Hp.
    apply elem_of_elements in Hin. unfold symmetric_difference, dict_items in Hin.
    apply elem_of_union in Hin as [Hin|Hin];
      apply elem_of_difference in Hin as [Hin _];
      apply elem_of_list_to_set in Hin.
    + exists old, g. split; [done|]. split; [|done]. by apply dict_get_elem_of.
    + apply dict_get_elem_of in Hin; [|done]. congruence.
  - intros (old & new & Hold & Hnew & Hne). exists (w, new). split; [done|].
    apply list_elem_of_filter. simpl. split.
    + apply andb_prop_intro. split.
      * apply bool_decide_pack. unfold dict_keys.
        apply elem_of_intersection. split; apply elem_of_list_to_set,
          list_elem_of_fmap; [exists (w, old)|exists (w, new)];
          (split; [done|by apply dict_get_Some_elem]).
      * rewrite Hold. by apply bool_decide_pack.
    + apply elem_of_elements. unfold symmetric_difference, dict_items.
      apply elem_of_union_l, elem_of_difference. split.
      * by apply elem_of_list_to_set, dict_get_Some_elem.
      * rewrite elem_of_list_to_set. intros Hin.
        apply dict_get_elem_of in Hin; [|done]. congruence.
Qed.

(** After a reflow every key of the map is in [widgets] or is a chrome
    widget of the arrangement. *)
Lemma reflow_widgets_keys k :
  let self' := (reflow parent size self).2 in
  k ∈ dict_keys (_full_map self') →
  k ∈ widgets self' ∨ k ∈ chrome_of parent size true.
Proof.
  pose proof (arrange_root_keys true parent size) as [_ Hin].
  unfold reflow. destruct (_arrange_root parent size true) as [map ws].
  simpl in *. apply Hin.
Qed.

Lemma reflow_keys_distinct :
  NoDup (_full_map (reflow parent size self).2).*1.
Proof.
  pose proof (arrange_root_keys true parent size) as [Hnd _].
  unfold reflow. by destruct (_arrange_root parent size true) as [map ws].
Qed.
End reflow_result.

(** ** The painting orders of a composition map *)

Section orders.
Implicit Types (C : gset wid) (m : CompositorMap) (o : Order).

Lemma prefix_snoc_l o (t : Z * Z * Z) o' :
  (o ++ [t]) `prefix_of` o' → o `prefix_of` o'.
Proof. intros [k ->]. exists ([t] ++ k). by rewrite <- app_assoc. Qed.

Lemma prefix_snoc_inj o (t t' : Z * Z * Z) o' :
  (o ++ [t]) `prefix_of` o' → (o ++ [t']) `prefix_of` o' → t = t'.
Proof.
  intros [k ->] [k' Heq]. rewrite <- !app_assoc in Heq.
  apply app_inv_head in Heq. by injection Heq.
Qed.

Lemma prefix_snoc_self o (t : Z * Z * Z) : ¬ (o ++ [t]) `prefix_of` o.
Proof.
  intros [k Heq]. apply (f_equal length) in Heq.
  rewrite !length_app in Heq. simpl in Heq. lia.
Qed.

Lemma orders_in_impl C m (P Q : Order → Prop) :
  orders_in C m P → (∀ o, P o → Q o) → orders_in C m Q.
Proof. intros Hin HPQ k g Hk. destruct (Hin k g Hk); auto. Qed.

(** A chrome widget may be given any geometry. *)
Lemma chrome_set C m k g (P : Order → Prop) :
  k ∈ C → orders_unique C m → orders_in C m P →
  orders_unique C (dict_set m k g) ∧ orders_in C (dict_set m k g) P.
Proof.
  intros Hk Hu Hin. split.
  - intros k1 k2 g1 g2. rewrite !dict_get_set.
    destruct (decide (k = k1)) as [<-|?]; [by auto|].
    destruct (decide (k = k2)) as [<-|?]; [by auto|].
    apply Hu.
  - intros k' g'. rewrite dict_get_set.
    destruct (decide (k = k')) as [<-|?]; [by auto|]. apply Hin.
Qed.

Lemma add_scrollbars_orders C widget container_region o clip' container_size'
    (st : ArrangeState) (P : Order → Prop) :
  list_to_set (_arrange_scrollbars widget container_region).*1 ⊆ C →
  orders_unique C st.1 → orders_in C st.1 P →
  let st' := add_scrollbars widget container_region o clip' container_size' st in
  orders_unique C st'.1 ∧ orders_in C st'.1 P.
Proof.
  unfold add_scrollbars.
  generalize (_arrange_scrollbars widget container_region). intros chrome.
  revert st. induction chrome as [|[cw cr] chrome IH]; intros st Hsub Hu Hin.
  - done.
  - assert (cw ∈ C) as Hcw.
    { apply Hsub. rewrite fmap_cons.
      apply elem_of_list_to_set, list_elem_of_here. }
    simpl. apply IH.
    + intros x Hx. apply Hsub. rewrite fmap_cons.
      apply elem_of_list_to_set, list_elem_of_further.
      by apply elem_of_list_to_set in Hx.
    + by apply (chrome_set C st.1 cw _ P).
    + by apply (chrome_set C st.1 cw _ P).
Qed.

(** The widget itself is given the order [o], which no other widget that
    is not a chrome widget has. *)
Lemma placed_set C m k g (P : Order → Prop) :
  orders_unique C m → orders_in C m P → (∀ o, P o → o ≠ order g) →
  orders_unique C (dict_set m k g) ∧
  orders_in C (dict_set m k g) (λ o, P o ∨ o = order g).
Proof.
  intros Hu Hin Hfresh. split.
  - intros k1 k2 g1 g2. rewrite !dict_get_set.
    destruct (decide (k = k1)) as [<-|?], (decide (k = k2)) as [<-|?].
    + by auto.
    + intros [= <-] Hk2 Ho. destruct (Hin k2 g2 Hk2) as [?|HP]; [by auto|].
      by destruct (Hfresh _ HP).
    + intros Hk1 [= <-] Ho. destruct (Hin k1 g1 Hk1) as [?|HP]; [by auto|].
      by destruct (Hfresh _ HP).
    + apply Hu.
  - intros k' g'. rewrite dict_get_set.
    destruct (decide (k = k')) as [<-|?].
    + intros [= <-]. auto.
    + intros Hk'. destruct (Hin k' g' Hk'); auto.
Qed.
End orders.

Section arrangement_orders.
Variable visible_only : bool.
Implicit Types (C : gset wid) (m : CompositorMap) (o : Order).

Lemma widget_set C m k g o (P Q : Order → Prop) :
  orders_unique C m → orders_in C m P → order g = o →
  (∀ o', P o' → (Q o' ∨ o `prefix_of` o') ∧ o' ≠ o) →
  orders_unique C (dict_set m k g) ∧
  orders_in C (dict_set m k g) (λ o', Q o' ∨ o `prefix_of` o').
Proof.
  intros Hu Hin <- HP.
  destruct (placed_set C m k g P Hu Hin) as [Hu' Hin'].
  { intros o' Ho'. by apply HP. }
  split; [done|]. eapply orders_in_impl; [exact Hin'|].
  intros o' [Ho'| ->]; [by apply HP|]. right. done.
Qed.

Lemma below_siblings_fresh o lo (Q : Order → Prop) o' :
  (∀ o', Q o' → ¬ o `prefix_of` o') →
  Q o' ∨ below_siblings o lo o' → (Q o' ∨ o `prefix_of` o') ∧ o' ≠ o.
Proof.
  intros Hfresh [HQ|(t & _ & Ht)].
  - split; [by left|]. intros ->. by apply (Hfresh o).
  - split; [right; by eapply prefix_snoc_l|].
    intros ->. by apply prefix_snoc_self in Ht.
Qed.

Lemma add_widget_orders : ∀ w, widget_orders_ok visible_only w.
Proof.
  apply (Widget_mut (widget_orders_ok visible_only)
           (λ a, placements_orders_ok visible_only (placements a) ∧
                 ∀ r, placements_orders_ok visible_only
                        (get_visible_placements a r))
           (placements_orders_ok visible_only)).
  - intros attrs' arr IH vr r o lo cl vis st C Q Hsub Hu Hin Hfresh.
    assert (∀ sz r', placements_orders_ok visible_only
              (if visible_only then get_visible_placements (arr sz) r'
               else placements (arr sz))) as Hps.
    { intros sz r'. destruct visible_only; apply IH. }
    clear IH. simpl in *.
    assert (∀ o', Q o' → (Q o' ∨ o `prefix_of` o') ∧ o' ≠ o) as HQ.
    { intros o' Ho'. split; [by left|]. intros ->. by apply (Hfresh o). }
    assert (orders_in C st.1 (λ o', Q o' ∨ below_siblings o lo o')) as Hin0.
    { eapply orders_in_impl; [exact Hin|]. by left. }
    destruct (is_scrollable attrs'); [|destruct (effective_visible attrs' vis)].
    + apply union_subseteq in Hsub as [Hsub1 Hsub2].
      destruct (is_container attrs').
      * match goal with
          |- context [add_placements ?vo
                        (if _ then get_visible_placements (arr ?sz) ?r' else _)
                        ?o ?sc ?vis ?po ?pso ?gli ?ss (?st0, ?tr, ?lo)] =>
            pose proof (Hps sz r' o sc vis po pso gli ss st0 tr lo C Q) as Hloop;
            destruct (add_placements vo
                        (if vo then get_visible_placements (arr sz) r'
                         else placements (arr sz))
                        o sc vis po pso gli ss (st0, tr, lo))
              as [[st1 tr1] lo1]
        end.
        simpl in Hloop.
        destruct Hloop as (_ & Hu1 & Hin1); [exact Hsub1| | |exact Hfresh|].
        { by destruct (effective_visible attrs' vis). }
        { by destruct (effective_visible attrs' vis). }
        destruct (effective_visible attrs' vis); simpl in *.
        -- destruct (any_scrollbar (scrollbars_enabled attrs')).
           ++ match goal with |- context [add_scrollbars ?w ?cr ?o ?cl ?cs ?st] =>
                destruct (add_scrollbars_orders C w cr o cl cs st
                            (λ o', Q o' ∨ below_siblings o lo1 o'))
                  as [Hu2 Hin2]; [exact Hsub2|exact Hu1|exact Hin1|]
              end.
              eapply (widget_set C _ _ _ o _ Q);
                [exact Hu2|exact Hin2|reflexivity|].
              intros o'. by apply below_siblings_fresh.
           ++ eapply (widget_set C _ _ _ o _ Q);
                [exact Hu1|exact Hin1|reflexivity|].
              intros o'. by apply below_siblings_fresh.
        -- split; [done|]. eapply orders_in_impl; [exact Hin1|].
           intros o' Ho'. by apply (below_siblings_fresh o lo1 Q).
      * destruct (effective_visible attrs' vis); simpl in *.
        -- destruct (any_scrollbar (scrollbars_enabled attrs')).
           ++ match goal with |- context [add_scrollbars ?w ?cr ?o ?cl ?cs ?st] =>
                destruct (add_scrollbars_orders C w cr o cl cs st Q)
                  as [Hu2 Hin2]; [exact Hsub2|exact Hu|exact Hin|]
              end.
              eapply (widget_set C _ _ _ o Q Q);
                [exact Hu2|exact Hin2|reflexivity|exact HQ].
           ++ eapply (widget_set C _ _ _ o Q Q);
                [exact Hu|exact Hin|reflexivity|exact HQ].
        -- split; [done|]. eapply orders_in_impl; [exact Hin|]. by left.
    + simpl. eapply (widget_set C _ _ _ o Q Q);
        [exact Hu|exact Hin|reflexivity|exact HQ].
    + split; [done|]. eapply orders_in_impl; [exact Hin|]. by left.
  - intros ps Hps ws gvp Hgvp tr ss. simpl. split; [done|]. apply Hgvp.
  - intros o sub_clip vis po pso gli ss st tr lo C Q Hsub Hu Hin Hfresh.
    simpl. split; [lia|]. done.
  - intros sub_region margin sub_widget IHw z fixed rest IHrest.
    intros o sub_clip vis po pso gli ss st tr lo C Q Hsub Hu Hin Hfresh.
    simpl in *.
    pose proof (IHrest o sub_clip vis po pso gli ss st tr lo C Q) as Hrest.
    destruct (add_placements visible_only rest o sub_clip vis po pso gli ss
                (st, tr, lo)) as [[st1 tr1] lo1].
    apply union_subseteq in Hsub as [Hsub1 Hsub2].
    simpl in Hrest. destruct Hrest as (Hlo & Hu1 & Hin1); [done..|].
    set (t := (default 0 (gli !! layer sub_widget), z, lo1)).
    assert (∀ o', Q o' ∨ below_siblings o lo1 o' →
                  ¬ (o ++ [t]) `prefix_of` o') as Hfresh'.
    { intros o' [HQ|(t' & Hlt & Ht')] Ht.
      - apply (Hfresh o' HQ). by eapply prefix_snoc_l.
      - assert (t = t') as <- by (by eapply prefix_snoc_inj).
        simpl in Hlt. lia. }
    assert (∀ o', (Q o' ∨ below_siblings o lo1 o') ∨ (o ++ [t]) `prefix_of` o' →
                  Q o' ∨ below_siblings o (lo1 - 1) o') as Hpost.
    { intros o' [[HQ|(t' & Hlt & Ht')]|Ht]; [by left| |].
      - right. exists t'. split; [lia|done].
      - right. exists t. split; [simpl; lia|done]. }
    destruct fixed; simpl.
    + destruct (IHw sub_region (translate sub_region po) (o ++ [t]) lo1
                  sub_clip vis st1 C (λ o', Q o' ∨ below_siblings o lo1 o'))
        as [Hu2 Hin2]; [done..|].
      split; [lia|]. split; [done|]. by eapply orders_in_impl.
    + destruct (IHw sub_region (translate sub_region pso) (o ++ [t]) lo1
                  sub_clip vis st1 C (λ o', Q o' ∨ below_siblings o lo1 o'))
        as [Hu2 Hin2]; [done..|].
      split; [lia|]. split; [done|]. by eapply orders_in_impl.
Qed.
End arrangement_orders.

(** ** The orders of the scrollbars *)

Section placed.
Implicit Types (m : CompositorMap) (new : list (wid * option wid)).

Lemma NoDup_fst_eq {A B} (l : list (A * B)) (a : A) (b b' : B) :
  NoDup l.*1 → (a, b) ∈ l → (a, b') ∈ l → b = b'.
Proof.
  induction l as [|[a0 b0] l IH]; simpl; [by intros _ ?%elem_of_nil|].
  intros [Hnotin Hnd]%NoDup_cons [Hb|Hb]%elem_of_cons [Hb'|Hb']%elem_of_cons.
  - congruence.
  - injection Hb as -> ->. contradict Hnotin.
    apply list_elem_of_fmap. by exists (a0, b').
  - injection Hb' as -> ->. contradict Hnotin.
    apply list_elem_of_fmap. by exists (a0, b).
  - by apply IH.
Qed.

Lemma placed_ok_nil m : placed_ok [] m m.
Proof.
  split; [done|]. split; [by intros k ?%elem_of_nil|].
  by intros c w ?%elem_of_nil.
Qed.

Lemma placed_ok_app new1 new2 m m1 m2 :
  NoDup (new1 ++ new2).*1 →
  placed_ok new1 m m1 → placed_ok new2 m1 m2 →
  placed_ok (new1 ++ new2) m m2.
Proof.
  rewrite fmap_app. intros (Hnd1 & Hdisj & Hnd2)%NoDup_app.
  intros (Hf1 & Hs1 & He1) (Hf2 & Hs2 & He2).
  assert (∀ k, k ∈ new1.*1 → dict_get m2 k = dict_get m1 k) as Hkeep.
  { intros k Hk. apply Hf2. by apply Hdisj. }
  split; [|split].
  - intros k Hk. rewrite fmap_app, elem_of_app in Hk.
    rewrite Hf2, Hf1; [done|tauto..].
  - intros k. rewrite fmap_app. intros [Hk|Hk]%elem_of_app; [|by apply Hs2].
    rewrite Hkeep by done. by apply Hs1.
  - intros c w [Hin|Hin]%elem_of_app.
    + destruct (He1 c w Hin) as (Hw & gc & gw & Hc & Hgw & Ho).
      split; [apply elem_of_app; by left|]. exists gc, gw.
      rewrite !Hkeep; [done|..].
      * apply list_elem_of_fmap. by exists (w, None).
      * apply list_elem_of_fmap. by exists (c, Some w).
    + destruct (He2 c w Hin) as (Hw & Hex).
      split; [apply elem_of_app; by right|done].
Qed.

Lemma placed_ok_self m k g : placed_ok [(k, None)] m (dict_set m k g).
Proof.
  split; [|split].
  - intros k' Hk'. rewrite dict_get_set, decide_False; [done|].
    intros ->. apply Hk'. apply list_elem_of_here.
  - intros k' ->%list_elem_of_singleton. rewrite dict_get_set, decide_True; done.
  - intros c w [=]%list_elem_of_singleton.
Qed.

Lemma add_scrollbars_get widget container_region o clip' container_size'
    (st : ArrangeState) k :
  let chrome := _arrange_scrollbars widget container_region in
  let st' := add_scrollbars widget container_region o clip' container_size' st in
  (k ∉ chrome.*1 → dict_get st'.1 k = dict_get st.1 k) ∧
  (k ∈ chrome.*1 → ∃ g, dict_get st'.1 k = Some g ∧ order g = o).
Proof.
  unfold add_scrollbars.
  generalize (_arrange_scrollbars widget container_region). intros chrome.
  induction chrome as [|[cw cr] chrome IH] using rev_ind; simpl.
  - split; [done|]. by intros ?%elem_of_nil.
  - rewrite foldl_app, fmap_app. simpl. rewrite dict_get_set, elem_of_app.
    destruct IH as [IH1 IH2]. rewrite list_elem_of_singleton. split.
    + intros Hk. rewrite decide_False by (intros ->; tauto). apply IH1. tauto.
    + intros Hk. destruct (decide (cw = k)) as [->|Hne]; [by eauto|].
      apply IH2. destruct Hk as [?|?]; [done|congruence].
Qed.

(** A widget and its scrollbars: the scrollbars are put into the map with
    the order of the widget, and then the widget itself. *)
Lemma placed_ok_scrollbars (widget : WidgetAttrs) container_region o clip'
    container_size' (st : ArrangeState) (g : MapGeometry) :
  let new := ((λ chrome : wid * Region, (chrome.1, Some (widget_id widget)))
                <$> _arrange_scrollbars widget container_region)
             ++ [(widget_id widget, None)] in
  NoDup new.*1 → order g = o →
  placed_ok new st.1
    (map_set (add_scrollbars widget container_region o clip' container_size' st)
       (widget_id widget) g).1.
Proof.
  intros new Hnd Ho. unfold new in *. clear new.
  rewrite fmap_app, <- list_fmap_compose in Hnd. simpl in Hnd.
  change ((λ chrome : wid * Region, (chrome.1, Some (widget_id widget))) <$> ?l)
    with ((λ chrome : wid * Region, (chrome.1, Some (widget_id widget))) <$> l).
  apply NoDup_app in Hnd as (_ & Hdisj & _).
  assert (widget_id widget ∉ (_arrange_scrollbars widget container_region).*1)
    as Hid.
  { intros Hin. apply (Hdisj _ Hin). apply list_elem_of_here. }
  pose proof (λ k, add_scrollbars_get widget container_region o clip'
                     container_size' st k) as Hget. simpl in Hget.
  split; [|split]; simpl.
  - intros k Hk. rewrite fmap_app, <- list_fmap_compose, elem_of_app in Hk.
    rewrite dict_get_set, decide_False.
    + apply Hget. tauto.
    + intros <-. apply Hk. right. apply list_elem_of_here.
  - intros k Hk. rewrite dict_get_set.
    destruct (decide (widget_id widget = k)) as [Heq|Hne]; [done|].
    destruct (decide (k ∈ (_arrange_scrollbars widget container_region).*1))
      as [Hin|Hnotin].
    + destruct (proj2 (Hget k) Hin) as (g' & -> & _). done.
    + revert Hk. rewrite fmap_app, <- list_fmap_compose, elem_of_app.
      intros [?|?%list_elem_of_singleton]; done.
  - intros c w [Hin|[=]%list_elem_of_singleton]%elem_of_app.
    apply list_elem_of_fmap in Hin as ([c' cr] & [= -> ->] & Hin).
    split; [apply elem_of_app; right; apply list_elem_of_here|].
    assert (c' ∈ (_arrange_scrollbars widget container_region).*1) as Hc'.
    { apply list_elem_of_fmap. by exists (c', cr). }
    destruct (proj2 (Hget c') Hc') as (gc & Hgc & Hoc).
    exists gc, g. rewrite !dict_get_set.
    rewrite (decide_True (P:=widget_id widget = widget_id widget)) by done.
    rewrite decide_False by (intros Heq; apply Hid; by rewrite Heq).
    split; [done|]. split; [done|]. congruence.
Qed.
End placed.

Section arrangement_placed.
Variable visible_only : bool.

Lemma add_widget_placed : ∀ w, widget_placed_ok visible_only w.
Proof.
  apply (Widget_mut (widget_placed_ok visible_only)
           (λ a, placements_placed_ok visible_only (placements a) ∧
                 ∀ r, placements_placed_ok visible_only
                        (get_visible_placements a r))
           (placements_placed_ok visible_only)).
  - intros attrs' arr IH vr r o lo cl vis st Hnd.
    assert (∀ sz r', placements_placed_ok visible_only
              (if visible_only then get_visible_placements (arr sz) r'
               else placements (arr sz))) as Hps.
    { intros sz r'. destruct visible_only; apply IH. }
    clear IH. simpl in *.
    set (st0 := if effective_visible attrs' vis
                then add_new_widget st (widget_id attrs') else st) in *.
    assert (st0.1 = st.1) as Hst0.
    { unfold st0. by destruct (effective_visible attrs' vis). }
    clearbody st0. rewrite <- Hst0. clear Hst0 st.
    destruct (is_scrollable attrs').
    2:{ destruct (effective_visible attrs' vis); simpl.
        - apply placed_ok_self.
        - apply placed_ok_nil. }
    destruct (is_container attrs').
    + match goal with
        |- context [add_placements ?vo
                      (if _ then get_visible_placements (arr ?sz) ?r' else _)
                      ?o ?sc ?vis ?po ?pso ?gli ?ss (?st1, ?tr, ?lo)] =>
          pose proof (Hps sz r' o sc vis po pso gli ss st1 tr lo) as Hloop;
          destruct (add_placements vo
                      (if vo then get_visible_placements (arr sz) r'
                       else placements (arr sz))
                      o sc vis po pso gli ss (st1, tr, lo))
            as [[st2 tr2] lo2]
      end.
      simpl in Hloop.
      pose proof Hnd as Hnd0. rewrite fmap_app in Hnd0.
      apply NoDup_app in Hnd0 as (Hnd1 & _ & Hnd2).
      specialize (Hloop Hnd1).
      apply (placed_ok_app _ _ _ st2.1); [done|exact Hloop|].
      destruct (effective_visible attrs' vis); simpl; [|apply placed_ok_nil].
      destruct (any_scrollbar (scrollbars_enabled attrs')); simpl.
      * by apply placed_ok_scrollbars.
      * apply placed_ok_self.
    + simpl in *.
      destruct (effective_visible attrs' vis); simpl; [|apply placed_ok_nil].
      destruct (any_scrollbar (scrollbars_enabled attrs')); simpl.
      * by apply placed_ok_scrollbars.
      * apply placed_ok_self.
  - intros ps Hps ws gvp Hgvp tr ss. simpl. split; [done|]. apply Hgvp.
  - intros o sub_clip vis po pso gli ss st tr lo Hnd. simpl. apply placed_ok_nil.
  - intros sub_region margin sub_widget IHw z fixed rest IHrest.
    intros o sub_clip vis po pso gli ss st tr lo Hnd. simpl in *.
    pose proof (IHrest o sub_clip vis po pso gli ss st tr lo) as Hrest.
    destruct (add_placements visible_only rest o sub_clip vis po pso gli ss
                (st, tr, lo)) as [[st1 tr1] lo1].
    simpl in Hrest.
    pose proof Hnd as Hnd'. rewrite fmap_app in Hnd'.
    apply NoDup_app in Hnd' as (Hnd1 & _ & Hnd2).
    apply (placed_ok_app _ _ _ st1.1); [done|by apply Hrest|].
    destruct fixed; simpl; by apply IHw.
Qed.

Lemma chrome_placed :
  ∀ w r cl vis k,
    k ∈ chrome_widgets visible_only w r cl vis ↔
    ∃ w', (k, Some w') ∈ placed_widgets visible_only w r cl vis.
Proof.
  apply (Widget_mut
           (λ w, ∀ r cl vis k,
              k ∈ chrome_widgets visible_only w r cl vis ↔
              ∃ w', (k, Some w') ∈ placed_widgets visible_only w r cl vis)
           (λ a,
              (∀ sc vis po pso k,
                 k ∈ chrome_placements visible_only (placements a) sc vis po pso ↔
                 ∃ w', (k, Some w')
                       ∈ placed_placements visible_only (placements a) sc vis
                           po pso) ∧
              ∀ r sc vis po pso k,
                k ∈ chrome_placements visible_only (get_visible_placements a r)
                      sc vis po pso ↔
                ∃ w', (k, Some w')
                      ∈ placed_placements visible_only
                          (get_visible_placements a r) sc vis po pso)
           (λ ps, ∀ sc vis po pso k,
              k ∈ chrome_placements visible_only ps sc vis po pso ↔
              ∃ w', (k, Some w')
                    ∈ placed_placements visible_only ps sc vis po pso)).
  - intros attrs' arr IH r cl vis k. simpl.
    assert (∀ sz r' sc vis' po pso,
              k ∈ chrome_placements visible_only
                    (if visible_only then get_visible_placements (arr sz) r'
                     else placements (arr sz)) sc vis' po pso ↔
              ∃ w', (k, Some w')
                    ∈ placed_placements visible_only
                        (if visible_only then get_visible_placements (arr sz) r'
                         else placements (arr sz)) sc vis' po pso) as Hps.
    { intros sz r' sc vis' po pso. destruct visible_only; apply IH. }
    clear IH.
    destruct (is_scrollable attrs').
    2:{ rewrite elem_of_empty. split; [done|]. intros [w' Hin].
        destruct (effective_visible attrs' vis).
        - by apply list_elem_of_singleton in Hin.
        - by apply elem_of_nil in Hin. }
    rewrite elem_of_union.
    setoid_rewrite elem_of_app.
    assert ((k ∈ (if effective_visible attrs' vis
                     && any_scrollbar (scrollbars_enabled attrs')
                  then list_to_set
                         (_arrange_scrollbars attrs'
                            (translate (shrink r (styles_gutter attrs'))
                               match styles_offset attrs' with
                               | Some styles_offset =>
                                   styles_offset (region_size r) (region_size cl)
                               | None => NULL_OFFSET
                               end)).*1
                  else (∅ : gset wid))) ↔
            ∃ w', (k, Some w')
                  ∈ (if effective_visible attrs' vis
                     then (if any_scrollbar (scrollbars_enabled attrs')
                           then (λ chrome : wid * Region,
                                   (chrome.1, Some (widget_id attrs')))
                                  <$> _arrange_scrollbars attrs'
                                        (translate (shrink r (styles_gutter attrs'))
                                           match styles_offset attrs' with
                                           | Some styles_offset =>
                                               styles_offset (region_size r)
                                                 (region_size cl)
                                           | None => NULL_OFFSET
                                           end)
                           else [])
                          ++ [(widget_id attrs', None)]
                     else [])) as Hself.
    { destruct (effective_visible attrs' vis); simpl.
      2:{ rewrite elem_of_empty. split; [done|].
          by intros [w' ?%elem_of_nil]. }
      destruct (any_scrollbar (scrollbars_enabled attrs')); simpl.
      - rewrite elem_of_list_to_set, list_elem_of_fmap. split.
        + intros ([c cr] & -> & Hin). exists (widget_id attrs').
          apply elem_of_app. left. apply list_elem_of_fmap. by exists (c, cr).
        + intros (w' & [Hin|[=]%list_elem_of_singleton]%elem_of_app).
          apply list_elem_of_fmap in Hin as ([c cr] & [= -> ->] & Hin).
          by exists (c, cr).
      - rewrite elem_of_empty. split; [done|].
        by intros (w' & [=]%list_elem_of_singleton). }
    rewrite Hself. clear Hself.
    destruct (is_container attrs').
    + rewrite Hps. split.
      * intros [[w' ?]|[w' ?]]; exists w'; by auto.
      * intros [w' [?|?]]; [left|right]; by exists w'.
    + rewrite elem_of_empty. split.
      * intros [[]|[w' ?]]. exists w'. by auto.
      * intros [w' [?%elem_of_nil|?]]; [done|]. right. by exists w'.
  - intros ps Hps ws gvp Hgvp tr ss. simpl. split; [done|]. apply Hgvp.
  - intros sc vis po pso k. simpl. rewrite elem_of_empty. split; [done|].
    by intros [w' ?%elem_of_nil].
  - intros sub_region margin sub_widget IHw z fixed rest IHrest.
    intros sc vis po pso k. simpl.
    rewrite elem_of_union, IHrest, IHw. setoid_rewrite elem_of_app. split.
    + intros [[w' ?]|[w' ?]]; exists w'; by auto.
    + intros [w' [?|?]]; [left|right]; by exists w'.
Qed.
End arrangement_placed.

(** C4, the claim as stated fails: the scrollbar 9 of the scrollable
    widget 1 is put into the map with the order of the widget. *)
Lemma scrollbar_shares_order :
  let map := (_arrange_root (scroll_view 1%positive 9%positive) (mkSize 10 3)
                true).1 in
  ∃ g1 g9, dict_get map 1%positive = Some g1 ∧
           dict_get map 9%positive = Some g9 ∧
           1%positive ≠ 9%positive ∧ order g1 = order g9.
Proof.
  vm_compute. eexists _, _. split; [reflexivity|]. split; [reflexivity|].
  split; [discriminate|reflexivity].
Qed.

(** C4, amended: in every composition map that the arrangement produces
    (with only the visible placements, as in a reflow, or with all of them,
    as when [full_map] is built again), two distinct widgets that are not
    scrollbar chrome widgets have different order tuples.  The chrome
    widgets are the scrollbars that the arrangement places, each with the
    widget that owns it.  When no widget or scrollbar is placed twice, the
    keys of the map are the placed widgets, a scrollbar is in the map with
    the order tuple of the widget that owns it, and two placed widgets have
    the same order tuple exactly when they have the same owner (a widget
    owns itself): a scrollbar shares its order with its owner and with the
    other scrollbars of its owner, and with no other widget. *)
Theorem arranged_orders_distinct (root : Widget) (size : Size)
    (visible_only : bool) :
  let map := (_arrange_root root size visible_only).1 in
  let chrome := chrome_of root size visible_only in
  let placed := placed_of root size visible_only in
  (∀ w1 w2 g1 g2,
     dict_get map w1 = Some g1 → dict_get map w2 = Some g2 → w1 ≠ w2 →
     w1 ∉ chrome → w2 ∉ chrome → order g1 ≠ order g2) ∧
  (∀ k, k ∈ chrome ↔ ∃ w, (k, Some w) ∈ placed) ∧
  (NoDup placed.*1 →
     (∀ k, k ∈ dict_keys map ↔ k ∈ placed.*1) ∧
     (∀ c w, (c, Some w) ∈ placed →
        (w, None) ∈ placed ∧
        ∃ gc gw, dict_get map c = Some gc ∧ dict_get map w = Some gw ∧
                 order gc = order gw) ∧
     (∀ p1 p2 g1 g2,
        p1 ∈ placed → p2 ∈ placed →
        dict_get map p1.1 = Some g1 → dict_get map p2.1 = Some g2 →
        (order g1 = order g2 ↔ owner p1 = owner p2))).
Proof.
  intros map chrome placed.
  assert (∀ w1 w2 g1 g2,
            dict_get map w1 = Some g1 → dict_get map w2 = Some g2 → w1 ≠ w2 →
            w1 ∉ chrome → w2 ∉ chrome → order g1 ≠ order g2) as Hdistinct.
  { intros w1 w2 g1 g2 Hw1 Hw2 Hne Hc1 Hc2 Ho.
    destruct (add_widget_orders visible_only root (size_region size)
                (size_region size) [(0, 0, 0)] 0 (size_region size) true ([], ∅)
                (chrome_of root size visible_only) (λ _, False))
      as [Hu _]; [done|by intros ????|by intros ??|done|].
    destruct (Hu w1 w2 g1 g2 Hw1 Hw2 Ho) as [?|[?|?]]; done. }
  assert (∀ k, k ∈ chrome ↔ ∃ w, (k, Some w) ∈ placed) as Hchrome.
  { intros k. apply chrome_placed. }
  split; [done|]. split; [done|]. intros Hnd.
  pose proof (add_widget_placed visible_only root (size_region size)
                (size_region size) [(0, 0, 0)] 0 (size_region size) true ([], ∅)
                Hnd) as Hok.
  change (placed_ok placed [] map) in Hok.
  destruct Hok as (Hframe & Hsome & Hsame).
  assert (∀ p g, p ∈ placed → dict_get map p.1 = Some g →
                 (owner p, None) ∈ placed ∧
                 ∃ gw, dict_get map (owner p) = Some gw ∧ order g = order gw)
    as Howner.
  { intros [k [w|]] g Hp Hg; simpl in *.
    - destruct (Hsame k w Hp) as (Hw & gc & gw & Hgc & Hgw & Ho).
      split; [done|]. exists gw. split; [done|]. congruence.
    - split; [done|]. by exists g. }
  split; [|split; [done|]].
  - intros k. rewrite elem_of_dict_keys. split.
    + intros Hk. destruct (decide (k ∈ placed.*1)) as [?|Hnot]; [done|].
      rewrite (Hframe k Hnot) in Hk. by destruct Hk.
    + apply Hsome.
  - intros p1 p2 g1 g2 Hp1 Hp2 Hg1 Hg2.
    destruct (Howner p1 g1 Hp1 Hg1) as (Hw1 & gw1 & Hgw1 & Ho1).
    destruct (Howner p2 g2 Hp2 Hg2) as (Hw2 & gw2 & Hgw2 & Ho2).
    split.
    + intros Ho. destruct (decide (owner p1 = owner p2)) as [?|Hne]; [done|].
      exfalso. apply (Hdistinct (owner p1) (owner p2) gw1 gw2); try done.
      * intros [w Hin]%Hchrome.
        by pose proof (NoDup_fst_eq placed _ _ _ Hnd Hw1 Hin).
      * intros [w Hin]%Hchrome.
        by pose proof (NoDup_fst_eq placed _ _ _ Hnd Hw2 Hin).
      * congruence.
    + intros Heq. rewrite Heq, Hgw2 in Hgw1. injection Hgw1 as <-.
      by rewrite Ho1, Ho2.
Qed.

Lemma arranged_orders_distinct_witness :
  let map := (_arrange_root scroll_view_and_sibling (mkSize 10 3) true).1 in
  ∃ g2 g3 g9,
    dict_get map 2%positive = Some g2 ∧ dict_get map 3%positive = Some g3 ∧
    dict_get map 9%positive = Some g9 ∧
    order g2 ≠ order g3 ∧ order g9 = order g2 ∧ order g9 ≠ order g3.
Proof.
  intros map.
  assert (∃ g2, dict_get map 2%positive = Some g2) as [g2 H2]
    by (vm_compute; eexists; reflexivity).
  assert (∃ g3, dict_get map 3%positive = Some g3) as [g3 H3]
    by (vm_compute; eexists; reflexivity).
  assert (∃ g9, dict_get map 9%positive = Some g9) as [g9 H9]
    by (vm_compute; eexists; reflexivity).
  exists g2, g3, g9. split; [done|]. split; [done|]. split; [done|].
  destruct (arranged_orders_distinct scroll_view_and_sibling (mkSize 10 3) true)
    as (Hdistinct & _ & Hplaced).
  destruct Hplaced as (_ & _ & Hiff).
  { apply (bool_decide_unpack
             (NoDup (placed_of scroll_view_and_sibling (mkSize 10 3) true).*1)).
    vm_compute. exact I. }
  assert ((2%positive, None) ∈ placed_of scroll_view_and_sibling (mkSize 10 3) true)
    as Hp2 by (vm_compute;
          repeat (first [apply list_elem_of_here|apply list_elem_of_further])).
  assert ((3%positive, None) ∈ placed_of scroll_view_and_sibling (mkSize 10 3) true)
    as Hp3 by (vm_compute;
          repeat (first [apply list_elem_of_here|apply list_elem_of_further])).
  assert ((9%positive, Some 2%positive)
          ∈ placed_of scroll_view_and_sibling (mkSize 10 3) true)
    as Hp9 by (vm_compute;
          repeat (first [apply list_elem_of_here|apply list_elem_of_further])).
  split; [|split].
  - intros Ho. by apply (Hiff _ _ g2 g3 Hp2 Hp3 H2 H3) in Ho.
  - by apply (Hiff _ _ g9 g2 Hp9 Hp2 H9 H2).
  - intros Ho. by apply (Hiff _ _ g9 g3 Hp9 Hp3 H9 H3) in Ho.
Defined.

(** ** Chops: the first strip written for a cut stays *)

Lemma sorted_removelast (l : list Z) (hi k : Z) :
  StronglySorted Z.lt l → last l = Some hi →
  k ∈ removelast l ↔ k ∈ l ∧ k < hi.
Proof.
  intros Hs Hlast. apply last_Some in Hlast as [l' Hl]. subst l.
  rewrite removelast_last.
  apply StronglySorted_app in Hs as (Hlt & _ & _).
  rewrite elem_of_app, list_elem_of_singleton. split.
  - intros Hk. split; [by left|]. apply Hlt; [done|apply list_elem_of_here].
  - intros [[?| ->] ?]; [done|lia].
Qed.

Lemma filter_above_nil (l : list Z) (P : Z → Prop) `{∀ c, Decision (P c)} (b : Z) :
  Forall (Z.lt b) l → (∀ c, P c → c ≤ b) → filter P l = [].
Proof.
  intros Hall HP. induction Hall as [|c l Hc Hall IH]; [done|].
  rewrite filter_cons_False; [done|]. intros Hpc. apply HP in Hpc. lia.
Qed.

Lemma filter_closed_split (l : list Z) (a b : Z) :
  StronglySorted Z.lt l → b ∈ l → a ≤ b →
  filter (λ c, a ≤ c ≤ b) l = filter (λ c, a ≤ c < b) l ++ [b].
Proof.
  induction 1 as [|c l Hs IH Hall]; intros Hb Hab.
  - by apply elem_of_nil in Hb.
  - destruct (decide (b = c)) as [->|Hne].
    + rewrite filter_cons_True by lia.
      rewrite (filter_cons_False (λ c0, a ≤ c0 < c)) by lia.
      rewrite (filter_above_nil l (λ c0, a ≤ c0 ≤ c) c) by (done || lia).
      rewrite (filter_above_nil l (λ c0, a ≤ c0 < c) c) by (done || lia).
      done.
    + apply elem_of_cons in Hb as [?|Hb]; [done|].
      rewrite Forall_forall in Hall. specialize (Hall b Hb).
      destruct (decide (a ≤ c)).
      * rewrite !filter_cons_True by lia. simpl. f_equal. by apply IH.
      * rewrite !filter_cons_False by lia. by apply IH.
Qed.

Lemma fst_zip_take {A B} (l : list A) (k : list B) :
  (zip l k).*1 = take (length k) l.
Proof.
  revert k. induction l as [|a l IH]; intros [|b k]; simpl; try done.
  f_equal. apply IH.
Qed.

Section cut_strips.
Context {Cell : Type}.
Implicit Types (strip : list Cell) (crow : list Z) (R : Region).

Lemma length_divide_from pos strip cuts :
  length (divide_from pos strip cuts) = length cuts.
Proof.
  revert pos. induction cuts as [|c cuts IH]; intros pos; simpl; [done|].
  by rewrite IH.
Qed.

(** The cuts that a line of a widget writes: the cuts of the row from the
    left edge of its clipped region up to, and without, the right edge. *)
Lemma cut_strips_keys crow R strip :
  StronglySorted Z.lt crow → region_x R ∈ crow →
  region_x R + region_width R ∈ crow → 0 < region_width R →
  (cut_strips_of crow R strip).*1
  = filter (λ c, region_x R ≤ c < region_x R + region_width R) crow.
Proof.
  intros Hs Hleft Hright Hw. unfold cut_strips_of, column_span. simpl.
  rewrite (filter_closed_split crow _ _ Hs Hright) by lia.
  set (init := filter (λ c, region_x R ≤ c < region_x R + region_width R) crow).
  assert (region_x R ∈ init) as Hinit.
  { apply list_elem_of_filter. split; [lia|done]. }
  assert (1 ≤ length init)%nat as Hlen.
  { clearbody init. destruct init; [by apply elem_of_nil in Hinit|simpl; lia]. }
  rewrite fst_zip_take. case_decide as Hfinal.
  - rewrite length_app in Hfinal. simpl in *.
    apply take_app_length'. lia.
  - unfold divide. rewrite length_divide_from, length_fmap.
    apply take_app_length'. clear Hinit. clearbody init.
    destruct init; simpl in *; [lia|]. rewrite length_app. simpl. lia.
Qed.

Lemma foldM_write_cut (pairs : list (Z * list Cell))
    (row : list (Z * option (list Cell))) :
  (∀ k, k ∈ pairs.*1 → is_Some (dict_get row k)) →
  ∃ row', foldM write_cut row pairs = inr row' ∧
    ∀ k, dict_get row' k =
         match dict_get row k, dict_get pairs k with
         | Some None, Some frag => Some (Some frag)
         | o, _ => o
         end.
Proof.
  revert row. induction pairs as [|[c s] pairs IH]; intros row Hkeys.
  - exists row. split; [done|]. intros k. simpl.
    repeat case_match; done.
  - simpl. unfold write_cut at 1. simpl.
    destruct (Hkeys c) as [slot Hslot]; [rewrite fmap_cons; apply list_elem_of_here|].
    unfold Strip in *. rewrite Hslot.
    assert (∀ row1,
      (∀ k, dict_get row1 k = if decide (c = k)
                              then Some (Some (default s slot)) else dict_get row k) →
      ∃ row', foldM write_cut row1 pairs = inr row' ∧
        ∀ k, dict_get row' k =
             match dict_get row k, (if decide (c = k) then Some s
                                    else dict_get pairs k) with
             | Some None, Some frag => Some (Some frag)
             | o, _ => o
             end) as Hstep.
    { intros row1 Hrow1. destruct (IH row1) as (row' & Hfold & Hget).
      - intros k Hk. rewrite Hrow1. case_decide; [by eauto|].
        apply Hkeys. rewrite fmap_cons. by apply list_elem_of_further.
      - exists row'. split; [done|]. intros k. rewrite Hget, Hrow1.
        destruct (decide (c = k)) as [<-|Hne].
        + rewrite Hslot. by destruct slot.
        + done. }
    destruct slot as [filled|]; simpl.
    + apply Hstep. intros k. case_decide as Hk; [|done]. by subst.
    + apply Hstep. intros k. apply dict_get_set.
Qed.
End cut_strips.

(** ** Sorting by painting order *)

Section order_lt.
Implicit Types (a b c : Order) (s t u : Z * Z * Z).

Lemma triple_lt_spec s t :
  triple_lt s t ↔
  s.1.1 < t.1.1 ∨ (s.1.1 = t.1.1 ∧ (s.1.2 < t.1.2 ∨ (s.1.2 = t.1.2 ∧ s.2 < t.2))).
Proof. unfold triple_lt. by rewrite bool_decide_spec. Qed.

Lemma triple_lt_irrefl s : ¬ triple_lt s s.
Proof. rewrite triple_lt_spec. lia. Qed.

Lemma triple_lt_trans s t u : triple_lt s t → triple_lt t u → triple_lt s u.
Proof. rewrite !triple_lt_spec. lia. Qed.

Lemma triple_lt_total s t : triple_lt s t ∨ s = t ∨ triple_lt t s.
Proof.
  rewrite !triple_lt_spec. destruct s as [[s1 s2] s3], t as [[t1 t2] t3]. simpl.
  destruct (decide (s1 = t1)) as [->|?]; [|lia].
  destruct (decide (s2 = t2)) as [->|?]; [|lia].
  destruct (decide (s3 = t3)) as [->|?]; [|lia].
  right. by left.
Qed.

Lemma order_lt_irrefl a : order_lt a a = false.
Proof.
  induction a as [|s a IH]; simpl; [done|]. by rewrite decide_True.
Qed.

Lemma order_lt_trans a b c : order_lt a b → order_lt b c → order_lt a c.
Proof.
  revert b c. induction a as [|s a IH]; intros [|t b] [|u c]; simpl; try done.
  destruct (decide (s = t)) as [->|Hst].
  - destruct (decide (t = u)) as [->|Htu]; [by apply IH|done].
  - destruct (decide (t = u)) as [->|Htu].
    + by rewrite decide_False.
    + intros Hlt1 Hlt2. pose proof (triple_lt_trans _ _ _ Hlt1 Hlt2) as Hlt.
      destruct (decide (s = u)) as [->|?]; [|done].
      by apply triple_lt_irrefl in Hlt.
Qed.

Lemma order_lt_total a b : order_lt a b ∨ a = b ∨ order_lt b a.
Proof.
  revert b. induction a as [|s a IH]; intros [|t b]; simpl; auto.
  destruct (decide (s = t)) as [->|Hst].
  - rewrite decide_True by done.
    destruct (IH b) as [?|[->|?]]; auto.
  - rewrite decide_False by done.
    destruct (triple_lt_total s t) as [?|[?|?]]; auto. done.
Qed.

Lemma order_lt_asym a b : order_lt a b → order_lt b a = false.
Proof.
  intros Hab. destruct (order_lt b a) eqn:Hba; [|done].
  pose proof (order_lt_trans a b a Hab) as Haa. rewrite Hba in Haa.
  rewrite order_lt_irrefl in Haa. by destruct Haa.
Qed.

Lemma order_ge_trans a b c :
  order_lt a b = false → order_lt b c = false → order_lt a c = false.
Proof.
  intros Hab Hbc. destruct (order_lt a c) eqn:Hac; [|done].
  destruct (order_lt_total b a) as [Hba|[->|Hba]].
  - pose proof (order_lt_trans b a c Hba) as Hbc'. rewrite Hac, Hbc in Hbc'.
    by destruct Hbc'.
  - congruence.
  - rewrite Hab in Hba. by destruct Hba.
Qed.
End order_lt.

Section sort_desc.
Context {A : Type} (key_lt : A → A → bool).
Hypothesis key_lt_asym : ∀ x y, key_lt x y → key_lt y x = false.
Hypothesis key_ge_trans :
  ∀ x y z, key_lt x y = false → key_lt y z = false → key_lt x z = false.
Implicit Types (x y : A) (l : list A).

Lemma insert_desc_perm x l : insert_desc key_lt x l ≡ₚ x :: l.
Proof.
  induction l as [|y l IH]; simpl; [done|].
  destruct (key_lt x y); [|done]. rewrite IH. apply Permutation_swap.
Qed.

Lemma sort_desc_perm l : sort_desc key_lt l ≡ₚ l.
Proof.
  induction l as [|x l IH]; simpl; [done|].
  by rewrite insert_desc_perm, IH.
Qed.

Lemma insert_desc_sorted x l :
  StronglySorted (λ a b, key_lt a b = false) l →
  StronglySorted (λ a b, key_lt a b = false) (insert_desc key_lt x l).
Proof.
  induction 1 as [|y l Hs IH Hall]; simpl.
  - by repeat constructor.
  - destruct (key_lt x y) eqn:Hxy.
    + constructor; [done|]. rewrite insert_desc_perm.
      constructor; [|done]. apply key_lt_asym. by rewrite Hxy.
    + constructor; [by constructor|]. constructor; [done|].
      eapply Forall_impl; [exact Hall|]. intros z Hyz. by eapply key_ge_trans.
Qed.

Lemma sort_desc_sorted l :
  StronglySorted (λ a b, key_lt a b = false) (sort_desc key_lt l).
Proof.
  induction l as [|x l IH]; simpl; [constructor|]. by apply insert_desc_sorted.
Qed.

(** The sort is stable: the elements that satisfy [P], a property of the
    key, keep their sequence. *)
Lemma insert_desc_filter (P : A → Prop) `{∀ x, Decision (P x)} x l :
  (∀ y, P x → P y → key_lt x y = false) →
  filter P (insert_desc key_lt x l) = filter P (x :: l).
Proof.
  intros Hkey. induction l as [|y l IH]; simpl; [done|].
  destruct (key_lt x y) eqn:Hxy; [|done].
  rewrite filter_cons, IH, !filter_cons.
  destruct (decide (P x)) as [Hx|Hx], (decide (P y)) as [Hy|Hy]; try done.
  rewrite Hkey in Hxy; done.
Qed.

Lemma sort_desc_stable (P : A → Prop) `{∀ x, Decision (P x)} l :
  (∀ x y, P x → P y → key_lt x y = false) →
  filter P (sort_desc key_lt l) = filter P l.
Proof.
  intros Hkey. induction l as [|x l IH]; simpl; [done|].
  rewrite insert_desc_filter by auto. by rewrite !filter_cons, IH.
Qed.
End sort_desc.

Lemma insert_desc_fmap {A B} (f : A → B) (lt_A : A → A → bool)
    (lt_B : B → B → bool) (x : A) (l : list A) :
  (∀ a b, lt_B (f a) (f b) = lt_A a b) →
  insert_desc lt_B (f x) (f <$> l) = f <$> insert_desc lt_A x l.
Proof.
  intros Hlt. induction l as [|y l IH]; simpl; [done|].
  rewrite Hlt. destruct (lt_A x y); simpl; [|done]. f_equal. apply IH.
Qed.

Lemma sort_desc_fmap {A B} (f : A → B) (lt_A : A → A → bool)
    (lt_B : B → B → bool) (l : list A) :
  (∀ a b, lt_B (f a) (f b) = lt_A a b) →
  sort_desc lt_B (f <$> l) = f <$> sort_desc lt_A l.
Proof.
  intros Hlt. unfold sort_desc. induction l as [|x l IH]; simpl; [done|].
  rewrite <- (insert_desc_fmap f lt_A lt_B) by done. f_equal. apply IH.
Qed.

Section painting_order.
Implicit Types (map sorted : list (wid * MapGeometry)) (self : Compositor).

Let by_order (a b : wid * MapGeometry) : bool :=
  order_lt (order a.2) (order b.2).

Lemma sort_by_order map :
  let sorted := sort_desc by_order map in
  sorted ≡ₚ map ∧ StronglySorted in_front sorted ∧
  ∀ o, filter (λ item, order item.2 = o) sorted
       = filter (λ item, order item.2 = o) map.
Proof.
  intros sorted. split; [apply sort_desc_perm|]. split.
  - apply sort_desc_sorted.
    + intros x y. apply order_lt_asym.
    + intros x y z. apply order_ge_trans.
  - intros o. apply sort_desc_stable.
    intros x y Hx Hy. unfold by_order. rewrite Hx, Hy. apply order_lt_irrefl.
Qed.

Lemma visible_widgets_of_sorted map size :
  visible_widgets_of map size
  = (λ item : wid * MapGeometry, (item.1, (region item.2, clip item.2)))
      <$> sort_desc by_order (filter (on_screen size) map).
Proof.
  unfold visible_widgets_of.
  rewrite (sort_desc_fmap _ by_order) by done.
  rewrite <- list_fmap_compose. done.
Qed.

Lemma visible_widgets_sorted map size :
  ∃ sorted,
    visible_widgets_of map size
    = (λ item : wid * MapGeometry, (item.1, (region item.2, clip item.2)))
        <$> sorted ∧
    sorted ≡ₚ filter (on_screen size) map ∧
    StronglySorted in_front sorted ∧
    ∀ o, filter (λ item, order item.2 = o) sorted
         = filter (λ item, order item.2 = o) (filter (on_screen size) map).
Proof.
  eexists. split; [apply visible_widgets_of_sorted|]. apply sort_by_order.
Qed.
End painting_order.


Lemma StronglySorted_filter_lt (P : Z → Prop) `{∀ c, Decision (P c)} (l : list Z) :
  StronglySorted Z.lt l → StronglySorted Z.lt (filter P l).
Proof.
  induction 1 as [|c l Hs IH Hall]; [constructor|].
  rewrite filter_cons. case_decide; [|done].
  constructor; [done|]. rewrite Forall_forall in *.
  intros c' [_ Hc']%list_elem_of_filter. by apply Hall.
Qed.

Section cut_fragments.
Context {Cell : Type}.
Implicit Types (strip frag : list Cell) (crow : list Z) (R : Region).

(** The strips of [divide], zipped with the cuts before them: the strip of
    a cut reaches from the cut to the next one. *)
Lemma zip_divide_from (left : Z) strip (c0 : Z) (cs : list Z) (cut next : Z) frag :
  StronglySorted Z.lt (c0 :: cs) → left ≤ c0 →
  cut ∈ c0 :: cs → next ∈ c0 :: cs → cut < next →
  (∀ c, c ∈ c0 :: cs → c ≤ cut ∨ next ≤ c) →
  dict_get (zip (c0 :: cs)
              (divide_from (c0 - left) strip ((λ c, c - left) <$> cs))) cut
  = Some frag →
  frag = take (Z.to_nat (next - cut)) (drop (Z.to_nat (cut - left)) strip).
Proof.
  revert c0. induction cs as [|c1 cs IH]; intros c0 Hs Hleft Hcut Hnext Hlt Hcons;
    simpl; [done|].
  apply StronglySorted_inv in Hs as [Hs Hall].
  pose proof Hall as Hall'. rewrite Forall_forall in Hall'.
  assert (c0 < c1) as H01 by apply Hall', list_elem_of_here.
  destruct (decide (c0 = cut)) as [<-|Hne].
  - intros [= <-].
    assert (next ∈ c1 :: cs) as Hnext'.
    { apply elem_of_cons in Hnext as [->|?]; [lia|done]. }
    assert (next = c1) as ->.
    { assert (c1 ≤ next).
      { apply elem_of_cons in Hnext' as [->|Hin]; [lia|].
        apply StronglySorted_inv in Hs as [_ Hall1].
        rewrite Forall_forall in Hall1. specialize (Hall1 next Hin). lia. }
      destruct (Hcons c1); [apply list_elem_of_further, list_elem_of_here|..]; lia. }
    f_equal. lia.
  - intros Hget. apply (IH c1); try done.
    + lia.
    + apply elem_of_cons in Hcut as [?|?]; [congruence|done].
    + apply elem_of_cons in Hnext as [->|?]; [|done].
      apply elem_of_cons in Hcut as [?|Hcut]; [congruence|].
      specialize (Hall' cut Hcut). lia.
    + intros c Hc. apply Hcons. by apply list_elem_of_further.
Qed.

(** The chop of a cell of a line of a widget: the part of the strip of
    the line between the cuts around the cell. *)
Lemma cut_strips_fragment crow R strip (x cut next : Z) frag :
  StronglySorted Z.lt crow → region_x R ∈ crow →
  region_x R + region_width R ∈ crow →
  region_x R ≤ x < region_x R + region_width R →
  cut_around crow x cut next →
  length strip = Z.to_nat (region_width R) →
  dict_get (cut_strips_of crow R strip) cut = Some frag →
  frag = take (Z.to_nat (next - cut)) (drop (Z.to_nat (cut - region_x R)) strip).
Proof.
  intros Hs Hleft Hright Hx (Hcut & Hnext & Hxc & Hcons) Hlen.
  unfold cut_strips_of, column_span. simpl.
  set (final_cuts := filter (λ c, region_x R ≤ c ≤ region_x R + region_width R)
                            crow).
  assert (StronglySorted Z.lt final_cuts) as Hsf
    by by apply StronglySorted_filter_lt.
  assert (region_x R ≤ cut) as Hcl by (destruct (Hcons _ Hleft); lia).
  assert (next ≤ region_x R + region_width R) as Hnr
    by (destruct (Hcons _ Hright); lia).
  assert (∀ c, c ∈ final_cuts ↔
               c ∈ crow ∧ region_x R ≤ c ≤ region_x R + region_width R) as Hin.
  { intros c. unfold final_cuts. rewrite list_elem_of_filter. tauto. }
  assert (head final_cuts = Some (region_x R)) as Hhead.
  { apply sorted_head_min; [done|apply Hin; split; [done|lia]|].
    intros c Hc%Hin. lia. }
  destruct final_cuts as [|c0 cs] eqn:Hfc; [done|].
  injection Hhead as ->.
  assert (∀ c, c ∈ region_x R :: cs → c ≤ cut ∨ next ≤ c) as Hcons'.
  { intros c Hc%Hin. apply Hcons. tauto. }
  assert (cut ∈ region_x R :: cs) as Hcut' by (apply Hin; split; [done|lia]).
  assert (next ∈ region_x R :: cs) as Hnext' by (apply Hin; split; [done|lia]).
  assert (region_x R + region_width R ∈ region_x R :: cs) as Hright'
    by (apply Hin; split; [done|lia]).
  case_decide as Hshort.
  - (* two cuts: the whole strip *)
    destruct cs as [|c1 [|c2 cs]]; simpl in Hshort; [| |lia].
    { apply elem_of_cons in Hright' as [?|?%elem_of_nil]; [lia|done]. }
    assert (c1 = region_x R + region_width R) as ->.
    { apply elem_of_cons in Hright' as [?|?%list_elem_of_singleton]; [lia|done]. }
    simpl. case_decide as Hk; [|done]. intros [= <-]. subst cut.
    assert (next = region_x R + region_width R) as ->.
    { apply elem_of_cons in Hnext' as [?|?%list_elem_of_singleton]; [lia|done]. }
    rewrite Z.sub_diag. change (Z.to_nat 0) with 0%nat.
    rewrite drop_0, take_ge; [done|]. lia.
  - unfold divide. simpl. intros Hget.
    apply (zip_divide_from (region_x R) strip (region_x R) cs cut next frag);
      try done; try lia.
    by rewrite Z.sub_diag.
Qed.
End cut_fragments.

Section chops_lines.
Context {Cell : Type}.
Variable size : Size.
Variable cuts : list (list Z).
Variable is_rendered_line : Z → bool.
Variable R : Region.
Hypothesis R_width : 0 < region_width R.
Hypothesis R_right : region_x R + region_width R ≤ size_width size.
Implicit Types (chops : @Chops Cell) (strip : list Cell) (crow : list Z).

Lemma py_getitem_in_range {A} (l : list A) (i : Z) (a : A) :
  0 ≤ i → l !! Z.to_nat i = Some a → py_getitem l i = inr (Z.to_nat i, a).
Proof.
  intros Hi Ha. unfold py_getitem, py_position.
  apply lookup_lt_Some in Ha as Hlt.
  rewrite decide_True by lia. by rewrite Ha.
Qed.

Lemma cut_strips_get crow strip k :
  StronglySorted Z.lt crow → region_x R ∈ crow →
  region_x R + region_width R ∈ crow →
  is_Some (dict_get (cut_strips_of crow R strip) k)
  ↔ k ∈ crow ∧ region_x R ≤ k < region_x R + region_width R.
Proof.
  intros Hs Hl Hr. rewrite dict_get_is_Some, cut_strips_keys by done.
  rewrite list_elem_of_filter. tauto.
Qed.

(** One line of a widget: the empty slots of the row from the left edge up
    to the right edge of the clipped region are filled, nothing else
    changes. *)
Lemma render_strip_spec chops (y : Z) strip crow :
  chops_wf size cuts chops → 0 ≤ y → cuts !! Z.to_nat y = Some crow →
  StronglySorted Z.lt crow → region_x R ∈ crow →
  region_x R + region_width R ∈ crow →
  ∃ chops', render_strip cuts is_rendered_line R chops (y, strip) = inr chops' ∧
    chops_wf size cuts chops' ∧
    ∀ i k, slot chops' i k =
      if decide (i = Z.to_nat y) then
        if is_rendered_line y then
          match slot chops i k, dict_get (cut_strips_of crow R strip) k with
          | Some None, Some frag => Some (Some frag)
          | o, _ => o
          end
        else slot chops i k
      else slot chops i k.
Proof.
  intros [Hlen Hwf] Hy Hcrow Hs Hl Hr. unfold render_strip. simpl.
  destruct (is_rendered_line y); simpl.
  2:{ exists chops. split; [done|]. split; [done|]. intros i k. by case_decide. }
  destruct (lookup_lt_is_Some_2 chops (Z.to_nat y)) as [row Hrow].
  { rewrite Hlen. by eapply lookup_lt_Some. }
  rewrite (py_getitem_in_range chops y row) by done.
  rewrite (py_getitem_in_range cuts y crow) by done. simpl.
  destruct (foldM_write_cut (cut_strips_of crow R strip) row) as (row' & -> & Hrow').
  { intros k Hk. rewrite cut_strips_keys in Hk by done.
    apply list_elem_of_filter in Hk as [Hk Hin].
    destruct (proj2 (Hwf (Z.to_nat y) crow k Hcrow)) as [o Ho]; [split; [done|lia]|].
    unfold slot, Chops, Strip in *. rewrite Hrow in Ho. simpl in Ho.
    by rewrite Ho. }
  simpl. eexists. split; [done|].
  assert (∀ i k, slot (<[Z.to_nat y:=row']> chops) i k =
      if decide (i = Z.to_nat y) then
        match slot chops i k, dict_get (cut_strips_of crow R strip) k with
        | Some None, Some frag => Some (Some frag)
        | o, _ => o
        end
      else slot chops i k) as Hslot.
  { intros i k. unfold slot, Chops, Strip in *. case_decide as Hi.
    - subst i. rewrite list_lookup_insert_eq by (by eapply lookup_lt_Some).
      rewrite Hrow. simpl. apply Hrow'.
    - by rewrite list_lookup_insert_ne. }
  split; [|done]. unfold Chops, Strip in *.
  split; [by rewrite length_insert|].
  intros i crow' k Hcrow'. rewrite <- (Hwf i crow' k Hcrow'), Hslot.
  case_decide; [|done].
  destruct (slot chops i k) as [[?|]|]; [done| |done].
  destruct (dict_get _ k); split; by eauto.
Qed.

(** The lines of a widget, for the rows [a], [a + 1], ... *)
Lemma render_lines_spec (strips : list (list Cell)) (a n : Z) chops :
  chops_wf size cuts chops → 0 ≤ a →
  (∀ y, a ≤ y < a + n →
     ∃ crow, cuts !! Z.to_nat y = Some crow ∧ StronglySorted Z.lt crow ∧
             region_x R ∈ crow ∧ region_x R + region_width R ∈ crow) →
  ∃ chops',
    foldM (render_strip cuts is_rendered_line R) chops (zip (seqZ a n) strips)
      = inr chops' ∧
    chops_wf size cuts chops' ∧
    (∀ i k s, slot chops i k = Some (Some s) → slot chops' i k = Some (Some s)) ∧
    (∀ i k, slot chops i k = Some None →
       slot chops' i k = Some None ∨
       (a ≤ Z.of_nat i < a + n ∧
        (Z.to_nat (Z.of_nat i - a) < length strips)%nat ∧
        region_x R ≤ k < region_x R + region_width R ∧
        ∃ frag, slot chops' i k = Some (Some frag))) ∧
    (∀ y strip crow k,
       a ≤ y < a + n → is_rendered_line y = true →
       strips !! Z.to_nat (y - a) = Some strip →
       cuts !! Z.to_nat y = Some crow →
       slot chops (Z.to_nat y) k = Some None →
       k ∈ crow → region_x R ≤ k < region_x R + region_width R →
       ∃ frag, slot chops' (Z.to_nat y) k = Some (Some frag) ∧
               dict_get (cut_strips_of crow R strip) k = Some frag).
Proof.
  revert a n chops. induction strips as [|s strips IH]; intros a n chops Hwf Ha Hrows.
  { exists chops. rewrite zip_with_nil_r. split; [done|]. split; [done|].
    split; [done|]. split; [by auto|]. intros y strip crow k _ _ Hnil. done. }
  destruct (decide (n ≤ 0)) as [Hn|Hn].
  { exists chops. rewrite seqZ_nil by done. split; [done|]. split; [done|].
    split; [done|]. split; [by auto|]. intros; lia. }
  rewrite seqZ_cons by lia. simpl.
  destruct (Hrows a) as (crow & Hcrow & Hs & Hl & Hr); [lia|].
  destruct (render_strip_spec chops a s crow Hwf Ha Hcrow Hs Hl Hr)
    as (chops1 & -> & Hwf1 & Hslot1).
  simpl.
  destruct (IH (Z.succ a) (Z.pred n) chops1 Hwf1) as
    (chops' & -> & Hwf' & Hfilled & Hempty & Hwrite); [lia| |].
  { intros y Hy. apply Hrows. lia. }
  exists chops'. split; [done|]. split; [done|].
  assert (∀ i k s0, slot chops i k = Some (Some s0) →
                    slot chops1 i k = Some (Some s0)) as Hfilled1.
  { intros i k s0 Hs0. rewrite Hslot1, Hs0. by repeat case_match. }
  split; [by auto|]. split.
  - intros i k Hnone.
    pose proof (Hslot1 i k) as H1. rewrite Hnone in H1.
    destruct (decide (i = Z.to_nat a)) as [->|Hi].
    + destruct (is_rendered_line a).
      * destruct (dict_get (cut_strips_of crow R s) k) as [frag|] eqn:Hfrag.
        -- right. split; [lia|]. split; [simpl; lia|]. split.
           ++ apply (cut_strips_get crow s k); [done..|by eauto].
           ++ exists frag. by apply Hfilled.
        -- destruct (Hempty _ _ H1) as [?|(? & ? & ?)]; [by left|].
           right. split; [lia|]. split; [simpl; lia|done].
      * destruct (Hempty _ _ H1) as [?|(? & ? & ?)]; [by left|].
        right. split; [lia|]. split; [simpl; lia|done].
    + destruct (Hempty _ _ H1) as [?|(? & ? & ?)]; [by left|].
      right. split; [lia|]. split; [simpl; lia|done].
  - intros y strip crow' k Hy Hrend Hstrip Hcrow' Hnone Hk Hin.
    destruct (decide (y = a)) as [->|Hya].
    + rewrite Z.sub_diag in Hstrip. simpl in Hstrip. injection Hstrip as ->.
      rewrite Hcrow in Hcrow'. injection Hcrow' as <-.
      destruct (proj2 (cut_strips_get crow strip k Hs Hl Hr)) as [frag Hfrag];
        [done|].
      exists frag. split; [|done]. apply Hfilled.
      rewrite Hslot1, decide_True, Hrend, Hnone by done.
      unfold Strip in *. by rewrite Hfrag.
    + apply (Hwrite y strip crow' k); try done; try lia.
      * replace (Z.to_nat (y - a)) with (S (Z.to_nat (y - Z.succ a))) in Hstrip
          by lia. done.
      * rewrite Hslot1. rewrite decide_False by lia. done.
Qed.
End chops_lines.

Lemma foldM_app {A B} (f : B → A → Result B) (b : B) (l1 l2 : list A) :
  foldM f b (l1 ++ l2) = result_bind (foldM f b l1) (λ b', foldM f b' l2).
Proof.
  revert b. induction l1 as [|a l1 IH]; intros b; simpl; [done|].
  destruct (f b a); simpl; [done|]. apply IH.
Qed.

Lemma cut_below_exists (l : list Z) (x : Z) :
  (∃ cut, cut ∈ l ∧ cut ≤ x ∧ ∀ c, c ∈ l → c ≤ x → c ≤ cut) ∨
  (∀ c, c ∈ l → x < c).
Proof.
  induction l as [|a l IH].
  - right. by intros c ?%elem_of_nil.
  - destruct IH as [(cut & Hin & Hle & Hmax)|Hall].
    + left. destruct (decide (a ≤ x ∧ cut < a)) as [[? ?]|Hno].
      * exists a. split; [apply list_elem_of_here|]. split; [done|].
        intros c [->|Hc]%elem_of_cons Hcx; [lia|]. specialize (Hmax c Hc Hcx). lia.
      * exists cut. split; [by apply list_elem_of_further|]. split; [done|].
        intros c [->|Hc]%elem_of_cons Hcx; [lia|by apply Hmax].
    + destruct (decide (a ≤ x)).
      * left. exists a. split; [apply list_elem_of_here|]. split; [done|].
        intros c [->|Hc]%elem_of_cons Hcx; [lia|]. specialize (Hall c Hc). lia.
      * right. intros c [->|Hc]%elem_of_cons; [lia|by apply Hall].
Qed.

Lemma cut_above_exists (l : list Z) (x : Z) :
  (∃ next, next ∈ l ∧ x < next ∧ ∀ c, c ∈ l → x < c → next ≤ c) ∨
  (∀ c, c ∈ l → c ≤ x).
Proof.
  induction l as [|a l IH].
  - right. by intros c ?%elem_of_nil.
  - destruct IH as [(next & Hin & Hlt & Hmin)|Hall].
    + left. destruct (decide (x < a ∧ a < next)) as [[? ?]|Hno].
      * exists a. split; [apply list_elem_of_here|]. split; [done|].
        intros c [->|Hc]%elem_of_cons Hcx; [lia|]. specialize (Hmin c Hc Hcx). lia.
      * exists next. split; [by apply list_elem_of_further|]. split; [done|].
        intros c [->|Hc]%elem_of_cons Hcx; [lia|by apply Hmin].
    + destruct (decide (x < a)).
      * left. exists a. split; [apply list_elem_of_here|]. split; [done|].
        intros c [->|Hc]%elem_of_cons Hcx; [lia|]. specialize (Hall c Hc). lia.
      * right. intros c [->|Hc]%elem_of_cons; [lia|by apply Hall].
Qed.

Lemma cut_around_exists (crow : list Z) (x lo hi : Z) :
  lo ∈ crow → hi ∈ crow → lo ≤ x < hi → ∃ cut next, cut_around crow x cut next.
Proof.
  intros Hlo Hhi Hx.
  destruct (cut_below_exists crow x) as [(cut & Hc & Hcx & Hmax)|Hall].
  2:{ specialize (Hall lo Hlo). lia. }
  destruct (cut_above_exists crow x) as [(next & Hn & Hnx & Hmin)|Hall].
  2:{ specialize (Hall hi Hhi). lia. }
  exists cut, next. split; [done|]. split; [done|]. split; [lia|].
  intros c Hcin. destruct (decide (c ≤ x)); [left; by apply Hmax|].
  right. apply Hmin; [done|lia].
Qed.

Lemma cuts_of_row_last (size : Size) (vw : VisibleWidgets) (y : Z) crow :
  0 ≤ size_width size → 0 ≤ y < size_height size →
  cuts_of size vw !! Z.to_nat y = Some crow →
  StronglySorted Z.lt crow ∧ last crow = Some (size_width size) ∧
  ∀ cut, cut ∈ crow ↔
    cut = 0 ∨ cut = size_width size ∨
    ∃ item, item ∈ vw ∧ widget_cut size y cut item.
Proof.
  intros Hw Hy Hcrow.
  destruct (cuts_of_row size vw y Hy) as (row & Hrow & Hsorted & Hin).
  rewrite Hcrow in Hrow. injection Hrow as <-.
  split; [done|]. split; [|done].
  apply sorted_last_max; [done| |].
  - apply Hin. right. by left.
  - intros cut [->|[->|(item & _ & Hs & _ & Hcut)]]%Hin; [lia..|].
    apply in_screen_bounds in Hs. lia.
Qed.

Lemma contains_spec (r : Region) (px py : Z) :
  contains r px py ↔
  region_x r ≤ px < region_x r + region_width r ∧
  region_y r ≤ py < region_y r + region_height r.
Proof.
  unfold contains. rewrite andb_True, !bool_decide_spec. lia.
Qed.

Section chops_widgets.
Context {Cell : Type}.
Variable opacity : wid → Q.
Variable render_lines : wid → Region → list (list Cell).
Variable size : Size.
Variable vw : VisibleWidgets.
Variable is_rendered_line : Z → bool.
Hypothesis vw_in_screen :
  ∀ item, item ∈ vw → in_screen size (intersection item.2.1 item.2.2).
Implicit Types (chops : list (list (Z * option (list Cell)))).
Implicit Types (item : wid * (Region * Region)).

Lemma widget_rows item (y : Z) :
  item ∈ vw →
  let R := intersection item.2.1 item.2.2 in
  region_y R ≤ y < region_y R + region_height R →
  ∃ crow, cuts_of size vw !! Z.to_nat y = Some crow ∧ StronglySorted Z.lt crow ∧
          region_x R ∈ crow ∧ region_x R + region_width R ∈ crow.
Proof.
  intros Hitem R Hy. pose proof (vw_in_screen item Hitem) as Hs.
  pose proof (in_screen_bounds size _ Hs) as Hb. fold R in Hb, Hs.
  destruct (cuts_of_row size vw y) as (crow & Hcrow & Hsorted & Hin); [lia|].
  exists crow. split; [done|]. split; [done|].
  split; apply Hin; right; right; exists item; (split; [done|]);
    unfold widget_cut; fold R; auto.
Qed.

Lemma render_widget_spec item (strips : list (list Cell)) chops :
  item ∈ vw → chops_wf size (cuts_of size vw) chops →
  let R := intersection item.2.1 item.2.2 in
  ∃ chops',
    render_widget (cuts_of size vw) is_rendered_line chops
      (item.2.1, item.2.2, strips) = inr chops' ∧
    chops_wf size (cuts_of size vw) chops' ∧
    (∀ i k s, slot chops i k = Some (Some s) → slot chops' i k = Some (Some s)) ∧
    (∀ i k, slot chops i k = Some None →
       slot chops' i k = Some None ∨
       (covers item i k ∧
        (Z.to_nat (Z.of_nat i - region_y R) < length strips)%nat)) ∧
    (∀ y strip crow k,
       region_y R ≤ y < region_y R + region_height R →
       is_rendered_line y = true →
       strips !! Z.to_nat (y - region_y R) = Some strip →
       cuts_of size vw !! Z.to_nat y = Some crow →
       slot chops (Z.to_nat y) k = Some None →
       k ∈ crow → region_x R ≤ k < region_x R + region_width R →
       ∃ frag, slot chops' (Z.to_nat y) k = Some (Some frag) ∧
               dict_get (cut_strips_of crow R strip) k = Some frag).
Proof.
  intros Hitem Hwf R. pose proof (vw_in_screen item Hitem) as Hs.
  pose proof (in_screen_bounds size _ Hs) as Hb. fold R in Hb, Hs.
  unfold render_widget, line_range. simpl. fold R.
  destruct (render_lines_spec size (cuts_of size vw) is_rendered_line R
              ltac:(lia) ltac:(lia) strips (region_y R) (region_height R) chops Hwf)
    as (chops' & Hfold & Hwf' & Hfilled & Hempty & Hwrite); [lia| |].
  { intros y Hy. by apply widget_rows. }
  exists chops'. split; [done|]. split; [done|]. split; [done|].
  split; [|done].
  intros i k Hnone. destruct (Hempty i k Hnone) as [?|(? & ? & ? & _)]; [by left|].
  right. unfold covers. fold R. done.
Qed.

Lemma renders_spec (items : VisibleWidgets) chops :
  (∀ item, item ∈ items → item ∈ vw) →
  chops_wf size (cuts_of size vw) chops →
  ∃ chops',
    foldM (render_widget (cuts_of size vw) is_rendered_line) chops
      (omap (render_of render_lines) items) = inr chops' ∧
    chops_wf size (cuts_of size vw) chops' ∧
    (∀ i k s, slot chops i k = Some (Some s) → slot chops' i k = Some (Some s)) ∧
    (∀ i k, slot chops i k = Some None →
       slot chops' i k = Some None ∨
       ∃ item, item ∈ items ∧ paints render_lines item k (Z.of_nat i)).
Proof.
  revert chops. induction items as [|item items IH]; intros chops Hsub Hwf.
  { exists chops. split; [done|]. split; [done|]. split; [done|]. by auto. }
  assert (∀ item', item' ∈ items → item' ∈ vw) as Hsub'.
  { intros item' Hin. apply Hsub. by apply list_elem_of_further. }
  assert (omap (render_of render_lines) (item :: items)
          = match render_of render_lines item with
            | Some r => r :: omap (render_of render_lines) items
            | None => omap (render_of render_lines) items
            end) as -> by done.
  destruct (render_of render_lines item) as [render|] eqn:Hrender.
  - assert (∃ request, render_request item.2.1 item.2.2 = Some request ∧
                       render = (item.2.1, item.2.2, render_lines item.1 request))
      as (request & Hrequest & ->).
    { unfold render_of in Hrender.
      destruct (render_request item.2.1 item.2.2) as [request|];
        simpl in Hrender; [|done].
      injection Hrender as <-. by eexists. }
    set (strips := render_lines item.1 request) in *.
    change (foldM ?f ?b (?a :: ?l)) with (result_bind (f b a) (λ b', foldM f b' l)).
    unfold Strip, Chops in *.
    destruct (render_widget_spec item strips chops)
      as (chops1 & -> & Hwf1 & Hfilled1 & Hempty1 & _); [|done|].
    { apply Hsub, list_elem_of_here. }
    simpl. destruct (IH chops1 Hsub' Hwf1) as (chops' & -> & Hwf' & Hfilled & Hempty).
    exists chops'. split; [done|]. split; [done|]. split; [by auto|].
    intros i k Hnone. destruct (Hempty1 i k Hnone) as [H1|[Hcov Hline]].
    + destruct (Hempty i k H1) as [?|(item' & ? & ?)]; [by left|].
      right. exists item'. split; [by apply list_elem_of_further|done].
    + right. exists item. split; [apply list_elem_of_here|].
      split; [apply contains_spec; unfold covers in Hcov; tauto|].
      by exists request.
  - destruct (IH chops Hsub' Hwf) as (chops' & -> & Hwf' & Hfilled & Hempty).
    exists chops'. split; [done|]. split; [done|]. split; [done|].
    intros i k Hnone. destruct (Hempty i k Hnone) as [?|(item' & ? & ?)]; [by left|].
    right. exists item'. split; [by apply list_elem_of_further|done].
Qed.

Lemma widget_regions_filter (crop : Region) (items : VisibleWidgets) :
  widget_regions_of opacity (Some crop) items
  = filter (λ item, is_rendered opacity crop item) items.
Proof.
  unfold widget_regions_of, is_rendered.
  destruct (region_bool crop); simpl; done.
Qed.

Lemma initial_chops_wf :
  0 ≤ size_width size →
  let chops0 : list (list (Z * option (list Cell))) :=
    (λ cut_set, fromkeys (removelast cut_set)) <$> cuts_of size vw in
  chops_wf size (cuts_of size vw) chops0 ∧
  ∀ i crow k, cuts_of size vw !! i = Some crow → k ∈ crow → k < size_width size →
              slot chops0 i k = Some None.
Proof.
  intros Hw chops0.
  assert (∀ i crow k, cuts_of size vw !! i = Some crow →
            slot chops0 i k = if decide (k ∈ crow ∧ k < size_width size)
                              then Some None else None) as Hslot.
  { intros i crow k Hcrow. unfold slot, chops0, Chops, Strip.
    rewrite list_lookup_fmap, Hcrow. simpl. rewrite dict_get_fromkeys.
    apply lookup_lt_Some in Hcrow as Hi. rewrite cuts_of_length in Hi.
    destruct (cuts_of_row_last size vw (Z.of_nat i) crow) as (Hs & Hlast & _);
      [done|lia|by rewrite Nat2Z.id|].
    pose proof (sorted_removelast crow (size_width size) k Hs Hlast) as Hrl.
    repeat case_decide; tauto. }
  split; [split|].
  - unfold chops0. by rewrite length_fmap.
  - intros i crow k Hcrow. rewrite (Hslot i crow k Hcrow).
    case_decide as Hk.
    + split; [done|by eauto].
    + split; [by intros [? ?]|done].
  - intros i crow k Hcrow Hk Hlt. rewrite (Hslot i crow k Hcrow).
    by rewrite decide_True.
Qed.

Local Arguments intersection : simpl never.

(** In the chops of the visible widgets [vw], the slot of a cell of a
    rendered line holds the part of the strip of the first rendered widget
    that has the cell in its clipped region and returned a line for the
    row. *)
Lemma render_chops_front (crop : Region) (front back : VisibleWidgets)
    (A : wid) (region clip request : Region) (x y : Z) (strip : list Cell) :
  vw = front ++ (A, (region, clip)) :: back →
  is_rendered opacity crop (A, (region, clip)) →
  let R := intersection region clip in
  contains R x y → is_rendered_line y = true →
  (∀ item, item ∈ front → is_rendered opacity crop item →
           ¬ paints render_lines item x y) →
  render_request region clip = Some request →
  render_lines A request !! Z.to_nat (y - region_y R) = Some strip →
  ∃ chops row crow cut next frag,
    render_chops_of (cuts_of size vw) is_rendered_line
      (omap (render_of render_lines) (widget_regions_of opacity (Some crop) vw))
    = inr chops ∧
    cuts_of size vw !! Z.to_nat y = Some crow ∧
    chops !! Z.to_nat y = Some row ∧
    cut_around crow x cut next ∧
    dict_get row cut = Some (Some frag) ∧
    dict_get (cut_strips_of crow R strip) cut = Some frag.
Proof.
  intros Hvw HA R Hcell Hline Hfront Hrequest Hstrip. subst R.
  set (R := intersection region clip) in *.
  apply contains_spec in Hcell as [Hx Hy].
  pose (itemA := (A, (region, clip))).
  assert (itemA ∈ vw) as HAin.
  { rewrite Hvw. apply elem_of_app. right. apply list_elem_of_here. }
  pose proof (in_screen_bounds size _ (vw_in_screen itemA HAin)) as Hb.
  change (intersection itemA.2.1 itemA.2.2) with R in Hb.
  destruct (widget_rows itemA y HAin) as (crow & Hcrow & Hsorted & Hleft & Hright);
    [done|]. change (intersection itemA.2.1 itemA.2.2) with R in Hleft, Hright.
  destruct (cut_around_exists crow x _ _ Hleft Hright Hx)
    as (cut & next & Hcut & Hnext & Hxcut & Hcons).
  assert (region_x R ≤ cut) as Hcut_left.
  { destruct (Hcons _ Hleft); lia. }
  destruct initial_chops_wf as [Hwf0 Hempty0]; [lia|].
  specialize (Hempty0 (Z.to_nat y) crow cut Hcrow Hcut ltac:(lia)).
  (* the renders before the widget, the widget, the renders after it *)
  destruct (renders_spec (filter (λ item, is_rendered opacity crop item) front)
              _ ltac:(intros item [_ Hin]%list_elem_of_filter; rewrite Hvw;
                      apply elem_of_app; by left) Hwf0)
    as (chops1 & Hfold1 & Hwf1 & _ & Hempty1).
  assert (slot chops1 (Z.to_nat y) cut = Some None) as Hslot1.
  { destruct (Hempty1 _ _ Hempty0) as [?|(item & Hitem & Hcov & Hret)]; [done|].
    apply list_elem_of_filter in Hitem as [Hrend Hitem].
    rewrite Z2Nat.id in Hcov, Hret by lia.
    apply contains_spec in Hcov as [Hcols Hrows].
    exfalso. apply (Hfront item Hitem Hrend). split; [|done].
    apply contains_spec.
    assert (item ∈ vw) as Hin by (rewrite Hvw; apply elem_of_app; by left).
    destruct (widget_rows item y Hin) as (crow' & Hcrow' & _ & _ & Hright');
      [lia|].
    rewrite Hcrow in Hcrow'. injection Hcrow' as <-.
    destruct (Hcons _ Hright'); lia. }
  destruct (render_widget_spec itemA (render_lines A request) chops1 HAin Hwf1)
    as (chops2 & Hrender & Hwf2 & _ & _ & Hwrite).
  change (intersection itemA.2.1 itemA.2.2) with R in Hwrite.
  change (itemA.2.1, itemA.2.2, render_lines A request)
    with (region, clip, render_lines A request) in Hrender.
  destruct (Hwrite y strip crow cut) as (frag & Hslot2 & Hfrag); try done; [lia|].
  destruct (renders_spec (filter (λ item, is_rendered opacity crop item) back)
              chops2 ltac:(intros item [_ Hin]%list_elem_of_filter; rewrite Hvw;
                           apply elem_of_app; right;
                           by apply list_elem_of_further) Hwf2)
    as (chops3 & Hfold3 & _ & Hfilled3 & _).
  apply Hfilled3 in Hslot2. unfold slot, Chops, Strip in Hslot2.
  destruct (chops3 !! Z.to_nat y) as [row|] eqn:Hrow; simpl in Hslot2; [|done].
  exists chops3, row, crow, cut, next, frag.
  split; [|done].
  unfold render_chops_of.
  rewrite widget_regions_filter. unfold VisibleWidgets in *.
  set (cs := cuts_of size vw) in *.
  rewrite Hvw, filter_app, filter_cons_True by done.
  rewrite omap_app.
  assert (omap (render_of render_lines)
            ((A, (region, clip))
               :: filter (λ item, is_rendered opacity crop item) back)
          = (region, clip, render_lines A request)
              :: omap (render_of render_lines)
                   (filter (λ item, is_rendered opacity crop item) back)) as ->.
  { simpl. unfold render_of at 1. simpl. by rewrite Hrequest. }
  unfold Strip, Chops in *. rewrite foldM_app, Hfold1. simpl.
  change (foldM ?f ?b (?a :: ?l)) with (result_bind (f b a) (λ b', foldM f b' l)).
  rewrite Hrender. simpl. exact Hfold3.
Qed.
End chops_widgets.

Lemma cached_renders {Cell : Type} (opacity : wid → Q)
    (render_lines : wid → Region → list (list Cell))
    (crop : Region) (is_rendered_line : Z → bool) (self : Compositor) :
  caches_valid self →
  let visible := visible_widgets_of (default (_full_map self) (_visible_map self))
                   (size self) in
  (visible_widgets self).1 = inr visible ∧
  (cuts self).1 = inr (cuts_of (size self) visible) ∧
  (_render_chops opacity render_lines crop is_rendered_line self).1
  = render_chops_of (cuts_of (size self) visible) is_rendered_line
      (omap (render_of render_lines)
         (widget_regions_of opacity (Some crop) visible)).
Proof.
  intros [Hvw Hcuts] visible.
  assert (visible_widgets self
          = (inr visible, set__visible_widgets (Some visible) self)) as Hframe.
  { unfold visible_widgets.
    destruct (_visible_widgets self) as [cached|] eqn:Hcached; [|done].
    rewrite (Hvw cached eq_refl). f_equal. destruct self; simpl in *.
    by rewrite Hcached, (Hvw cached eq_refl). }
  split; [by rewrite Hframe|].
  unfold _render_chops, _get_renders, cuts, run_bind, run_ret, lift.
  destruct (_cuts self) as [cached|] eqn:Hcached.
  - rewrite (Hcuts cached eq_refl), Hframe. done.
  - rewrite Hframe. simpl. done.
Qed.



